(** * Signal detection and replay engine of replay_runner.py

    A shallow embedding of [rolling_vwap], [detect_long_wick],
    [five_min_signals], [compute_premarket_high], [filter_bars_for_date] and
    [run_replay_for_date].

    Numbers: Python floats are idealised as exact rationals ([Q]); a value
    that may be NaN is an [option Q] with [None] for NaN, and every
    comparison against NaN is false, as in IEEE arithmetic.  Where rounding
    decides a property, module [F64] gives the same function over binary64
    floats.  Timestamps are
    local wall-clock seconds since an epoch ([Z]).  A pandas Series is an
    association list from index labels to values, so that duplicate labels
    and label lookups ([.loc]) behave as they do in pandas. *)

From Stdlib Require Import String ZArith QArith Qminmax Qabs Lqa Lia Bool List Permutation Sorted.
From Stdlib Require PrimFloat.
Import ListNotations.
Open Scope Q_scope.

(** ** Exceptions and the error monad *)

Inductive exn : Type :=
| TypeError
| KeyError
| ZeroDivisionError
| FetchError.

Inductive result (A : Type) : Type :=
| Ok (a : A)
| Raise (e : exn).
Arguments Ok {A} a.
Arguments Raise {A} e.

Definition bind {A B : Type} (m : result A) (k : A -> result B) : result B :=
  match m with
  | Ok a => k a
  | Raise e => Raise e
  end.

Notation "x <- m ;; k" := (bind m (fun x => k))
  (at level 61, m at next level, right associativity).

(** ** Floats with NaN *)

Definition fnum : Type := option Q.

Definition Qltb (x y : Q) : bool := negb (Qle_bool y x).

(** [a > b], [a < b], [a <= b] where [b] may be NaN. *)
Definition fgt (a : Q) (b : fnum) : bool :=
  match b with Some y => Qltb y a | None => false end.
Definition flt (a : Q) (b : fnum) : bool :=
  match b with Some y => Qltb a y | None => false end.
Definition fle (a : Q) (b : fnum) : bool :=
  match b with Some y => Qle_bool a y | None => false end.

(** ** Bars, series and events *)

Record Bar : Type := mkBar {
  ts : Z;
  Open : Q;
  High : Q;
  Low : Q;
  Close : Q;
  Volume : Q
}.

Definition Series : Type := list (Z * fnum).

Definition index (s : Series) : list Z := map fst s.
Definition values (s : Series) : list fnum := map snd s.

(** A column of values aligned on the index of a frame. *)
Definition on_index (bars : list Bar) (vals : list fnum) : Series :=
  combine (map ts bars) vals.

(** [s.loc[t]]: every entry whose label is [t]. *)
Definition loc (s : Series) (t : Z) : list fnum :=
  map snd (filter (fun kv => Z.eqb (fst kv) t) s).

(** [float(s.loc[t])]: a missing label is a KeyError; a label present once
    gives its scalar; a label present several times gives a Series of
    several rows, which [float] refuses with a TypeError. *)
Definition float_loc (s : Series) (t : Z) : result fnum :=
  match loc s t with
  | [] => Raise KeyError
  | [v] => Ok v
  | _ :: _ :: _ => Raise TypeError
  end.

Inductive Kind : Type := ENTRY | EXIT.

Inductive Reason : Type :=
| break_premarket
| vwap_reclaim
| vwap_loss
| long_wick
| atr_stop.

Record Event : Type := mkEvent {
  ev_ts : Z;
  ev_kind : Kind;
  ev_reason : Reason;
  ev_price : Q
}.

(** ** Vector operations of pandas and numpy *)

Fixpoint cumsum_from (acc : Q) (l : list Q) : list Q :=
  match l with
  | [] => []
  | x :: r => (acc + x) :: cumsum_from (acc + x) r
  end.

Definition cumsum (l : list Q) : list Q :=
  match l with
  | [] => []
  | x :: r => x :: cumsum_from x r
  end.

(** [.replace(0, np.nan)] *)
Definition replace0_nan (l : list Q) : list fnum :=
  map (fun x => if Qeq_bool x 0 then None else Some x) l.

(** [pv / v] where the divisor may be NaN (and is never zero after
    [replace0_nan]). *)
Definition div_nan (p : Q) (v : fnum) : fnum :=
  match v with
  | Some d => Some (p / d)
  | None => None
  end.

Fixpoint zip_with {A B C : Type} (f : A -> B -> C) (l1 : list A) (l2 : list B) : list C :=
  match l1, l2 with
  | x :: r1, y :: r2 => f x y :: zip_with f r1 r2
  | _, _ => []
  end.

(** [.fillna(method="ffill")] *)
Fixpoint ffill_from (last : fnum) (l : list fnum) : list fnum :=
  match l with
  | [] => []
  | x :: r =>
      let y := match x with Some _ => x | None => last end in
      y :: ffill_from y r
  end.

Definition ffill (l : list fnum) : list fnum := ffill_from None l.

(** [.shift(1)] *)
Definition shift1 (l : list Q) : list fnum :=
  match l with
  | [] => []
  | _ :: _ => None :: map Some (removelast l)
  end.

(** [.fillna(other)] with a series on the same index. *)
Definition fillna_with (l : list fnum) (other : list Q) : list Q :=
  zip_with (fun v o => match v with Some x => x | None => o end) l other.

(** [np.maximum(x1, x2, out)]: the ufunc is binary, and a third positional
    argument is its output buffer.  The element-wise maximum of [x1] and
    [x2] is written over the previous contents of [out], and [out] is
    returned. *)
Definition np_maximum (x1 x2 out : list Q) : list Q :=
  zip_with (fun m _ => m) (zip_with Qmax x1 x2) out.

Definition Qsum (l : list Q) : Q := fold_right Qplus 0 l.

(** [.rolling(window, min_periods).mean()]: [hist] holds the values already
    seen, the most recent first. *)
Fixpoint rolling_mean_from (window min_periods : nat) (hist l : list Q) : list fnum :=
  match l with
  | [] => []
  | x :: r =>
      let w := firstn window (x :: hist) in
      (if Nat.leb min_periods (length w)
       then Some (Qsum w / inject_Z (Z.of_nat (length w)))
       else None)
        :: rolling_mean_from window min_periods (x :: hist) r
  end.

Definition rolling_mean (window min_periods : nat) (l : list Q) : list fnum :=
  rolling_mean_from window min_periods [] l.

(** ** Signal engine *)

Definition rolling_vwap (bars : list Bar) : Series :=
  let pv := cumsum (map (fun b => Close b * Volume b) bars) in
  let v := replace0_nan (cumsum (map Volume bars)) in
  on_index bars (ffill (zip_with div_nan pv v)).

Definition wick_ratio : Q := 6 # 10.
Definition eps : Q := 1 # 1000000000.

(** [(num / den) >= thr] on numpy floats: a zero divisor gives +inf, -inf or
    NaN according to the sign of [num], and raises nothing. *)
Definition ratio_ge (num den thr : Q) : bool :=
  if Qeq_bool den 0 then Qltb 0 num else Qle_bool thr (num / den).

Definition detect_long_wick (row : Bar) : bool :=
  let body_top := Qmax (Open row) (Close row) in
  let upper_wick := High row - body_top in
  let total_range := High row - Low row + eps in
  ratio_ge upper_wick total_range wick_ratio.

(** [bars.sort_index()] *)
Fixpoint insert_by_ts (b : Bar) (l : list Bar) : list Bar :=
  match l with
  | [] => [b]
  | x :: r => if Z.leb (ts b) (ts x) then b :: l else x :: insert_by_ts b r
  end.

Definition sort_index (bars : list Bar) : list Bar :=
  fold_right insert_by_ts [] bars.

(** [bars.dropna(subset=["Close", "Volume"])]: a [Bar] holds numbers in
    every column, so no row is dropped. *)
Definition dropna (bars : list Bar) : list Bar := bars.

Definition prev_close_of (bars : list Bar) : list Q :=
  fillna_with (shift1 (map Close bars)) (map Open bars).

Definition true_range (bars : list Bar) : list Q :=
  let prev_close := prev_close_of bars in
  np_maximum (zip_with Qminus (map High bars) (map Low bars))
             (map Qabs (zip_with Qminus (map High bars) prev_close))
             (map Qabs (zip_with Qminus (map Low bars) prev_close)).

Definition atr_of (bars : list Bar) : Series :=
  on_index bars (ffill (rolling_mean 14 1 (true_range bars))).

(** The position state is the local [entry_price_per_t]: [None] is Flat,
    [Some p] is Entered(p). *)
Definition PositionState : Type := option Q.

Definition emit (row : Bar) (k : Kind) (r : Reason) : option Event :=
  Some (mkEvent (ts row) k r (Close row)).

(** The body of the loop for one row. *)
Definition bar_rules (premarket_high : option Q) (entry_price_per_t : PositionState)
    (row : Bar) (cur_vwap cur_atr : fnum) : option Event * PositionState :=
  let price := Close row in
  if match premarket_high with Some pm => Qltb pm price | None => false end
  then (emit row ENTRY break_premarket, Some price)
  else if fgt price cur_vwap && Qltb (Open row) (Close row)
  then (emit row ENTRY vwap_reclaim, Some price)
  else if flt price cur_vwap
  then (emit row EXIT vwap_loss, None)
  else if detect_long_wick row
  then (emit row EXIT long_wick, None)
  else match entry_price_per_t with
       | Some entry =>
           let stop := option_map (fun a => entry - (3 # 2) * a) cur_atr in
           if fle price stop
           then (emit row EXIT atr_stop, None)
           else (None, entry_price_per_t)
       | None => (None, entry_price_per_t)
       end.

Definition opt_list {A : Type} (o : option A) : list A :=
  match o with Some a => [a] | None => [] end.

(** [atr.iloc[-1]] *)
Definition iloc_last (s : Series) : result fnum :=
  match rev s with
  | [] => Raise KeyError
  | kv :: _ => Ok (snd kv)
  end.

Definition mem_index (t : Z) (s : Series) : bool :=
  existsb (Z.eqb t) (index s).

Fixpoint detect_loop (vwap atr : Series) (premarket_high : option Q)
    (rows : list Bar) (entry_price_per_t : PositionState) (events : list Event)
  : result (list Event) :=
  match rows with
  | [] => Ok events
  | row :: rest =>
      cur_vwap <- float_loc vwap (ts row) ;;
      cur_atr <- (if mem_index (ts row) atr then float_loc atr (ts row) else iloc_last atr) ;;
      let '(ev, st) := bar_rules premarket_high entry_price_per_t row cur_vwap cur_atr in
      detect_loop vwap atr premarket_high rest st (events ++ opt_list ev)
  end.

Definition five_min_signals (bars : list Bar) (premarket_high : option Q)
  : result (list Event) :=
  let bars := sort_index (dropna bars) in
  match bars with
  | [] => Ok []
  | _ :: _ =>
      let vwap := rolling_vwap bars in
      let atr := atr_of bars in
      detect_loop vwap atr premarket_high bars None []
  end.

(** ** Premarket reference and date filter *)

Definition hour (t : Z) : Z := ((t / 3600) mod 24)%Z.
Definition minute (t : Z) : Z := ((t / 60) mod 60)%Z.
(** [.normalize()] / [.date()]: the calendar day of a timestamp. *)
Definition date_of (t : Z) : Z := (t / 86400)%Z.

Definition pm_mask (market_open_hour market_open_minute : Z) (t : Z) : bool :=
  (hour t <? market_open_hour)%Z
  || ((hour t =? market_open_hour)%Z && (minute t <? market_open_minute)%Z).

(** [.max()] of a non-empty column. *)
Definition column_max (x : Q) (l : list Q) : Q := fold_left Qmax l x.

Definition compute_premarket_high (df_5m : list Bar)
    (market_open_hour market_open_minute : Z) : option Q :=
  match df_5m with
  | [] => None
  | _ :: _ =>
      let pm_df :=
        filter (fun b => pm_mask market_open_hour market_open_minute (ts b)) df_5m in
      match pm_df with
      | [] => None
      | b :: r => Some (column_max (High b) (map High r))
      end
  end.

Definition filter_bars_for_date (df_5m : list Bar) (target_date : Z) : list Bar :=
  match df_5m with
  | [] => df_5m
  | _ :: _ => filter (fun b => (date_of (ts b) =? target_date)%Z) df_5m
  end.

(** [.unique()]: the distinct values in order of first appearance. *)
Fixpoint unique_from (seen l : list Z) : list Z :=
  match l with
  | [] => []
  | x :: r =>
      if existsb (Z.eqb x) seen then unique_from seen r
      else x :: unique_from (x :: seen) r
  end.

Definition last_day (df_5m : list Bar) : Z :=
  last (unique_from [] (map (fun b => date_of (ts b)) df_5m)) 0%Z.

(** ** Replay driver *)

Record DailyRow : Type := mkDaily {
  d_ts : Z;
  d_open : Q;
  d_close : Q
}.

Record DailyFrame : Type := mkFrame {
  has_open : bool;
  has_close : bool;
  d_rows : list DailyRow
}.

(** The bar source ([yf.Ticker(t).history]), which may raise. *)
Record BarSource : Type := mkSource {
  daily_history : string -> result DailyFrame;
  intraday_history : string -> result (list Bar)
}.

Record Config : Type := mkConfig {
  tickers : list string;
  top_n_gappers : Z;
  gap_threshold_percent : Q
}.

Record GapCandidate : Type := mkGap {
  ticker : string;
  gap_pct : Q;
  prev_close : Q;
  open_price : Q
}.

(** Division of Python floats raises on a zero divisor. *)
Definition py_div (a b : Q) : result Q :=
  if Qeq_bool b 0 then Raise ZeroDivisionError else Ok (a / b).

Definition gap_of (t : string) (prev_close open_today : Q) : result (list GapCandidate) :=
  q <- py_div (open_today - prev_close) prev_close ;;
  Ok [mkGap t (q * 100) prev_close open_today].

Fixpoint find_date (target_date : Z) (rows : list DailyRow) (idx : nat) : option nat :=
  match rows with
  | [] => None
  | r :: rest =>
      if (date_of (d_ts r) =? target_date)%Z then Some idx
      else find_date target_date rest (S idx)
  end.

Definition iloc {A : Type} (l : list A) (i : nat) : result A :=
  match nth_error l i with
  | Some a => Ok a
  | None => Raise KeyError
  end.

(** The body of the [try] for one ticker: the candidates it appends to
    [results] (none when it hits a [continue]), or the exception raised. *)
Definition gap_body (src : BarSource) (target_date : option Z) (t : string)
  : result (list GapCandidate) :=
  d_hist <- daily_history src t ;;
  match d_rows d_hist with
  | [] => Ok []
  | _ :: _ =>
      if negb (has_open d_hist) || negb (has_close d_hist) then Ok []
      else
        let rows := d_rows d_hist in
        match target_date with
        | None =>
            if (length rows <? 2)%nat then Ok []
            else
              p <- iloc rows (length rows - 2) ;;
              o <- iloc rows (length rows - 1) ;;
              gap_of t (d_close p) (d_open o)
        | Some d =>
            match find_date d rows 0 with
            | None => Ok []
            | Some O => Ok []
            | Some (S m) =>
                p <- iloc rows m ;;
                o <- iloc rows (S m) ;;
                gap_of t (d_close p) (d_open o)
            end
        end
  end.

Fixpoint gap_results (src : BarSource) (target_date : option Z) (ts_ : list string)
  : list GapCandidate :=
  match ts_ with
  | [] => []
  | t :: rest =>
      match gap_body src target_date t with
      | Ok l => l
      | Raise _ => []
      end ++ gap_results src target_date rest
  end.

(** [sorted(..., key=lambda x: x[1], reverse=True)]: stable, so candidates
    with equal gaps keep their original order. *)
Fixpoint insert_desc (c : GapCandidate) (l : list GapCandidate) : list GapCandidate :=
  match l with
  | [] => [c]
  | x :: r =>
      if Qle_bool (gap_pct x) (gap_pct c) then c :: l else x :: insert_desc c r
  end.

Definition sorted_desc (l : list GapCandidate) : list GapCandidate :=
  fold_right insert_desc [] l.

(** [l[:n]], where a negative [n] counts from the end. *)
Definition slice_to {A : Type} (n : Z) (l : list A) : list A :=
  if (0 <=? n)%Z then firstn (Z.to_nat n) l
  else firstn (length l - Z.to_nat (- n)) l.

Definition select_top (gap_threshold : Q) (top_n : Z) (results : list GapCandidate)
  : list GapCandidate :=
  slice_to top_n
    (sorted_desc (filter (fun r => Qle_bool gap_threshold (gap_pct r)) results)).

(** One iteration of the replay loop: the sink writes for one ticker, or the
    exception raised.  The sink itself is taken not to fail. *)
Definition replay_ticker (src : BarSource) (target_date : option Z) (c : GapCandidate)
  : result (list (string * Event)) :=
  df_5m <- intraday_history src (ticker c) ;;
  match df_5m with
  | [] => Ok []
  | _ :: _ =>
      let used_date :=
        match target_date with
        | None => last_day df_5m
        | Some d => d
        end in
      let day_bars := filter_bars_for_date df_5m used_date in
      match day_bars with
      | [] => Ok []
      | _ :: _ =>
          let pm_high := compute_premarket_high df_5m 9 30 in
          events <- five_min_signals day_bars pm_high ;;
          Ok (map (fun ev => (ticker c, ev)) events)
      end
  end.

(** The outcome of a run: what reached the sink, and the exception that ended
    the run, if any. *)
Record Run : Type := mkRun {
  sink : list (string * Event);
  raised : option exn
}.

Fixpoint replay_loop (src : BarSource) (target_date : option Z)
    (top : list GapCandidate) (written : list (string * Event)) : Run :=
  match top with
  | [] => mkRun written None
  | c :: rest =>
      match replay_ticker src target_date c with
      | Ok w => replay_loop src target_date rest (written ++ w)
      | Raise e => mkRun written (Some e)
      end
  end.

(** [speed] only scales the pause between two sink writes. *)
Definition run_replay_for_date (cfg : Config) (src : BarSource)
    (target_date : option Z) (speed : Q) : Run :=
  let results := gap_results src target_date (tickers cfg) in
  let top := select_top (gap_threshold_percent cfg) (top_n_gappers cfg) results in
  match top with
  | [] => mkRun [] None
  | _ :: _ => replay_loop src target_date top []
  end.

(** * Definitions that follow the specification's words *)

(** The Bar invariants. *)
Definition bar_ok (b : Bar) : Prop :=
  Qmax (Open b) (Close b) <= High b /\ Low b <= Qmin (Open b) (Close b) /\ 0 <= Volume b.

(** Minimum of the lows and maximum of the highs of a bar sequence. *)
Definition min_low (bars : list Bar) : option Q :=
  match bars with
  | [] => None
  | b :: r => Some (fold_left Qmin (map Low r) (Low b))
  end.

Definition max_high (bars : list Bar) : option Q :=
  match bars with
  | [] => None
  | b :: r => Some (fold_left Qmax (map High r) (High b))
  end.

(** True range as the specification words it, with all three terms. *)
Fixpoint spec_true_range_from (pc : Q) (bars : list Bar) : list Q :=
  match bars with
  | [] => []
  | b :: r =>
      Qmax (Qmax (High b - Low b) (Qabs (High b - pc))) (Qabs (Low b - pc))
        :: spec_true_range_from (Close b) r
  end.

Definition spec_true_range (bars : list Bar) : list Q :=
  match bars with
  | [] => []
  | b :: _ => spec_true_range_from (Open b) bars
  end.

(** Local time of day strictly before the 09:30 cutoff, in seconds after
    midnight. *)
Definition before_cutoff (t : Z) : Prop := (t mod 86400 < 9 * 3600 + 30 * 60)%Z.

(** The five rules as the specification lists them, in priority order. *)
Definition rule_matches (r : Reason) (premarket_high : option Q) (st : PositionState)
    (row : Bar) (v a : fnum) : bool :=
  match r with
  | break_premarket =>
      match premarket_high with Some pm => Qltb pm (Close row) | None => false end
  | vwap_reclaim => fgt (Close row) v && Qltb (Open row) (Close row)
  | vwap_loss => flt (Close row) v
  | long_wick => detect_long_wick row
  | atr_stop =>
      match st with
      | Some entry => fle (Close row) (option_map (fun x => entry - (3 # 2) * x) a)
      | None => false
      end
  end.

Definition rule_kind (r : Reason) : Kind :=
  match r with
  | break_premarket | vwap_reclaim => ENTRY
  | vwap_loss | long_wick | atr_stop => EXIT
  end.

Definition rule_priority : list Reason :=
  [break_premarket; vwap_reclaim; vwap_loss; long_wick; atr_stop].

Definition spec_bar_rules (premarket_high : option Q) (st : PositionState)
    (row : Bar) (v a : fnum) : option Event * PositionState :=
  match find (fun r => rule_matches r premarket_high st row v a) rule_priority with
  | Some r =>
      (Some (mkEvent (ts row) (rule_kind r) r (Close row)),
       match rule_kind r with ENTRY => Some (Close row) | EXIT => None end)
  | None => (None, st)
  end.

(** ** Ranking of gap candidates *)

Definition Q_eq_dec (x y : Q) : {x = y} + {x <> y}.
Proof.
  decide equality; [apply Pos.eq_dec | apply Z.eq_dec].
Defined.

Definition GapCandidate_eq_dec (x y : GapCandidate) : {x = y} + {x <> y}.
Proof.
  decide equality; try apply Q_eq_dec. apply string_dec.
Defined.

(** How many candidates of [l] have a gap at least, or strictly above, that
    of [c]. *)
Definition count_ge (c : GapCandidate) (l : list GapCandidate) : nat :=
  length (filter (fun x => Qle_bool (gap_pct c) (gap_pct x)) l).

Definition count_gt (c : GapCandidate) (l : list GapCandidate) : nat :=
  length (filter (fun x => Qltb (gap_pct c) (gap_pct x)) l).

(** The number of candidates ranked ahead of [c] by gap descending: those
    with a larger gap, and those with the same gap that come before [c] in
    the list. *)
Fixpoint ahead_of (c : GapCandidate) (l : list GapCandidate) : nat :=
  match l with
  | [] => 0
  | x :: r =>
      if GapCandidate_eq_dec x c then count_gt c r
      else ((if Qle_bool (gap_pct c) (gap_pct x) then 1 else 0) + ahead_of c r)%nat
  end.

(** The candidate of ticker [t] for previous close [p] and open [o]. *)
Definition gap_candidate (t : string) (p o : Q) : GapCandidate :=
  mkGap t ((o - p) / p * 100) p o.

(** * Auxiliary definitions *)

(** The running VWAP before forward filling, started from given sums. *)
Definition raw_vwap_from (accpv accv : Q) (bars : list Bar) : list fnum :=
  zip_with div_nan (cumsum_from accpv (map (fun b => Close b * Volume b) bars))
           (replace0_nan (cumsum_from accv (map Volume bars))).

(** The true range the code computes, bar by bar: only the first two terms
    reach the result. *)
Fixpoint two_term_range_from (pc : Q) (bars : list Bar) : list Q :=
  match bars with
  | [] => []
  | b :: r =>
      Qmax (High b - Low b) (Qabs (High b - pc)) :: two_term_range_from (Close b) r
  end.

(** [prev_close] and [tr] when the shifted close column starts with [h]. *)
Definition prev_close_gen (h : fnum) (bars : list Bar) : list Q :=
  fillna_with (h :: map Some (removelast (map Close bars))) (map Open bars).

Definition true_range_gen (h : fnum) (bars : list Bar) : list Q :=
  np_maximum (zip_with Qminus (map High bars) (map Low bars))
             (map Qabs (zip_with Qminus (map High bars) (prev_close_gen h bars)))
             (map Qabs (zip_with Qminus (map Low bars) (prev_close_gen h bars))).

(** The defined ATR values of a bar sequence, in order. *)
Definition values_of_atr (bars : list Bar) : list Q :=
  flat_map (fun v => match v with Some a => [a] | None => [] end) (values (atr_of bars)).

(** ** The detector as a pure pass over bars with their indicators *)

Definition flat_events (outs : list (option Event)) : list Event :=
  flat_map opt_list outs.

(** The outcome of each bar in turn, given the bars with their VWAP and ATR
    values and the position state at the start. *)
Fixpoint run_rules (premarket_high : option Q) (inputs : list (Bar * fnum * fnum))
    (st : PositionState) : list (option Event) :=
  match inputs with
  | [] => []
  | (row, v, a) :: rest =>
      fst (bar_rules premarket_high st row v a)
        :: run_rules premarket_high rest (snd (bar_rules premarket_high st row v a))
  end.

(** Each bar with the VWAP and the ATR of its position. *)
Definition indicator_rows (bars : list Bar) : list (Bar * fnum * fnum) :=
  combine (combine bars (values (rolling_vwap bars))) (values (atr_of bars)).

Definition pure_events (premarket_high : option Q) (bars : list Bar) : list Event :=
  flat_events (run_rules premarket_high (indicator_rows bars) None).

Definition desc_sorted (l : list GapCandidate) : Prop :=
  StronglySorted (fun x y => gap_pct y <= gap_pct x) l.

(** * Sample inputs *)

(** Three bars within the Bar invariants, the first without volume. *)
Definition sample_bars : list Bar :=
  [mkBar 34200 10 12 9 11 0; mkBar 34500 11 13 10 12 100; mkBar 34800 12 12 8 9 300].

(** A day that opens far below the previous close. *)
Definition gap_down_bars : list Bar :=
  [mkBar 34200 20 21 19 20 1; mkBar 34500 (21 # 2) 11 10 (21 # 2) 1].

(** A bar whose high (5) lies below its low (8). *)
Definition inverted_bars : list Bar := [mkBar 34200 10 5 8 10 1].

(** A bar that closes at the running VWAP, then a bar that closes below it. *)
Definition exit_first_bars : list Bar :=
  [mkBar 34200 10 10 9 10 100; mkBar 34500 10 10 8 9 100].

(** A flat bar that closes above a premarket high of 9, then a flat bar at 8,
    equal to the running VWAP and below the entry by more than 1.5 ATR. *)
Definition atr_stop_bars : list Bar :=
  [mkBar 34200 10 10 10 10 0; mkBar 34500 8 8 8 8 1].

(** Two days of daily bars for three tickers; any other ticker fails to
    fetch.  On day 1 AAA gaps 10%, BBB 20% and CCC 0%. *)
Definition sample_daily (t : string) : result DailyFrame :=
  if String.eqb t "AAA" then Ok (mkFrame true true [mkDaily 0 90 100; mkDaily 86400 110 115])
  else if String.eqb t "BBB" then Ok (mkFrame true true [mkDaily 0 50 50; mkDaily 86400 60 61])
  else if String.eqb t "CCC" then Ok (mkFrame true true [mkDaily 0 10 10; mkDaily 86400 10 11])
  else Raise FetchError.

Definition daily_only_source : BarSource := mkSource sample_daily (fun _ => Ok []).

Definition sample_config : Config := mkConfig ["AAA"; "BBB"; "CCC"; "DDD"]%string 1 5.

(** Intraday bars of day 1 for AAA.  The first-ranked BBB either fails to
    fetch or comes with two bars on one timestamp. *)
Definition intraday_bars : list Bar :=
  [mkBar 120600 10 10 9 10 100; mkBar 120900 10 10 8 9 100].

Definition fetch_fails_source : BarSource :=
  mkSource sample_daily
    (fun t => if String.eqb t "AAA" then Ok intraday_bars else Raise FetchError).

Definition duplicate_bars_source : BarSource :=
  mkSource sample_daily
    (fun t => if String.eqb t "AAA" then Ok intraday_bars
              else Ok [mkBar 120600 10 10 9 10 100; mkBar 120600 10 10 8 9 100]).

Definition default_config (tks : list string) : Config := mkConfig tks 10 (1 # 10).

(** * Definitions for further properties *)

(** The previous close seen by bar [i]: the close of bar [i - 1], or the
    bar's own open for the first bar. *)
Definition prev_close_at (bars : list Bar) (i : nat) : option Q :=
  match i with
  | O => option_map Open (nth_error bars 0)
  | S j => option_map Close (nth_error bars j)
  end.

(** The true ranges of the trailing 14 bars at bar [i], fewer at the start. *)
Definition atr_window (bars : list Bar) (i : nat) : list Q :=
  skipn (S i - 14) (firstn (S i) (true_range bars)).

(** Cumulative traded value and volume through bar [i]. *)
Definition cum_value (bars : list Bar) (i : nat) : Q :=
  Qsum (map (fun b => Close b * Volume b) (firstn (S i) bars)).

Definition cum_volume (bars : list Bar) (i : nat) : Q :=
  Qsum (map Volume (firstn (S i) bars)).


(** The pass of the detector as the specification words it: the rules of
    [spec_bar_rules] bar after bar, each bar starting from the state the
    previous one left. *)
Fixpoint spec_run_rules (premarket_high : option Q) (inputs : list (Bar * fnum * fnum))
    (st : PositionState) : list (option Event) :=
  match inputs with
  | [] => []
  | (row, v, a) :: rest =>
      fst (spec_bar_rules premarket_high st row v a)
        :: spec_run_rules premarket_high rest (snd (spec_bar_rules premarket_high st row v a))
  end.

(** The events stamped with timestamp [t]. *)
Definition events_at (t : Z) (evs : list Event) : list Event :=
  filter (fun e => Z.eqb (ev_ts e) t) evs.

(** * The running VWAP over binary64 floats

    [rolling_vwap] with the arithmetic of the code: IEEE double products,
    sums in order of the rows, and a double quotient.  The columns hold
    numbers, not NaN. *)
Module F64.

Import PrimFloat.

Record Bar : Type := mkBar {
  ts : Z;
  Open : float;
  High : float;
  Low : float;
  Close : float;
  Volume : float
}.

Definition Series : Type := list (Z * float).

Definition index (s : Series) : list Z := map fst s.
Definition values (s : Series) : list float := map snd s.

Fixpoint cumsum_from (acc : float) (l : list float) : list float :=
  match l with
  | [] => []
  | x :: r => add acc x :: cumsum_from (add acc x) r
  end.

Definition cumsum (l : list float) : list float :=
  match l with
  | [] => []
  | x :: r => x :: cumsum_from x r
  end.

(** [.replace(0, np.nan)] *)
Definition replace0_nan (l : list float) : list float :=
  map (fun x => if eqb x zero then nan else x) l.

(** [.fillna(method="ffill")] *)
Fixpoint ffill_from (last : float) (l : list float) : list float :=
  match l with
  | [] => []
  | x :: r =>
      let y := if is_nan x then last else x in
      y :: ffill_from y r
  end.

Definition ffill (l : list float) : list float := ffill_from nan l.

Definition rolling_vwap (bars : list Bar) : Series :=
  let pv := cumsum (map (fun b => mul (Close b) (Volume b)) bars) in
  let v := replace0_nan (cumsum (map Volume bars)) in
  combine (map ts bars) (ffill (zip_with div pv v)).

(** The Bar invariants, decided on floats. *)
Definition bar_ok (b : Bar) : bool :=
  leb (Open b) (High b) && leb (Close b) (High b)
  && leb (Low b) (Open b) && leb (Low b) (Close b)
  && leb zero (Volume b).

(** The double nearest to 0.1. *)
Definition tenth : float := 0x1.999999999999ap-4%float.

(** One bar at 0.1 throughout, with volume 3. *)
Definition flat_bar : Bar := mkBar 34200 tenth tenth tenth tenth 3%float.

End F64.
(** * Properties *)

(** ** Lists and series *)

Lemma zip_with_length {A B C : Type} (f : A -> B -> C) (l1 : list A) (l2 : list B) :
  length (zip_with f l1 l2) = Nat.min (length l1) (length l2).
Proof.
  revert l2; induction l1 as [|x r IH]; intros [|y l2]; simpl; auto.
Qed.

Lemma cumsum_from_length (l : list Q) : forall acc, length (cumsum_from acc l) = length l.
Proof. induction l as [|x r IH]; intros acc; simpl; auto. Qed.

Lemma cumsum_length (l : list Q) : length (cumsum l) = length l.
Proof. destruct l; simpl; auto using cumsum_from_length. Qed.

Lemma ffill_from_length (l : list fnum) : forall last, length (ffill_from last l) = length l.
Proof. induction l as [|x r IH]; intros last; simpl; auto. Qed.

Lemma replace0_nan_length (l : list Q) : length (replace0_nan l) = length l.
Proof. apply length_map. Qed.

Lemma rolling_mean_from_length (w m : nat) (l : list Q) :
  forall hist, length (rolling_mean_from w m hist l) = length l.
Proof. induction l as [|x r IH]; intros hist; simpl; auto. Qed.

Lemma combine_index (l1 : list Z) (l2 : list fnum) :
  length l1 = length l2 -> map fst (combine l1 l2) = l1.
Proof.
  revert l2; induction l1 as [|x r IH]; intros [|y l2] H; simpl in *; try discriminate; auto.
  f_equal; apply IH; lia.
Qed.

Lemma combine_values (l1 : list Z) (l2 : list fnum) :
  length l1 = length l2 -> map snd (combine l1 l2) = l2.
Proof.
  revert l2; induction l1 as [|x r IH]; intros [|y l2] H; simpl in *; try discriminate; auto.
  f_equal; apply IH; lia.
Qed.

Lemma vwap_values_length (bars : list Bar) :
  length (ffill (zip_with div_nan (cumsum (map (fun b => Close b * Volume b) bars))
                          (replace0_nan (cumsum (map Volume bars))))) = length bars.
Proof.
  unfold ffill. rewrite ffill_from_length, zip_with_length, replace0_nan_length.
  rewrite !cumsum_length, !length_map. lia.
Qed.

Lemma rolling_vwap_index (bars : list Bar) : index (rolling_vwap bars) = map ts bars.
Proof.
  unfold rolling_vwap, on_index, index. apply combine_index.
  rewrite vwap_values_length, length_map. reflexivity.
Qed.

Lemma rolling_vwap_values (bars : list Bar) :
  values (rolling_vwap bars) =
  ffill (zip_with div_nan (cumsum (map (fun b => Close b * Volume b) bars))
                  (replace0_nan (cumsum (map Volume bars)))).
Proof.
  unfold rolling_vwap, on_index, values. apply combine_values.
  rewrite vwap_values_length, length_map. reflexivity.
Qed.

Lemma rolling_vwap_length (bars : list Bar) : length (rolling_vwap bars) = length bars.
Proof.
  rewrite <- (length_map fst). fold (index (rolling_vwap bars)).
  rewrite rolling_vwap_index. apply length_map.
Qed.

(** ** Bounds on the running VWAP *)

Lemma Qltb_lt (x y : Q) : Qltb x y = true <-> x < y.
Proof.
  unfold Qltb. rewrite negb_true_iff. split; intros H.
  - apply Qnot_le_lt. intros Hle. apply Qle_bool_iff in Hle. congruence.
  - destruct (Qle_bool y x) eqn:E; auto. apply Qle_bool_iff in E. lra.
Qed.

Lemma ffill_from_nth (l : list fnum) : forall last i w,
  nth_error (ffill_from last l) i = Some (Some w) ->
  last = Some w \/ exists j, (j <= i)%nat /\ nth_error l j = Some (Some w).
Proof.
  induction l as [|x r IH]; intros last i w H.
  - destruct i; discriminate.
  - destruct i as [|i]; simpl in H.
    + destruct x as [q|].
      * right. exists 0%nat. split; [lia | simpl; congruence].
      * left. congruence.
    + apply IH in H. destruct H as [H | (j & Hj & H)].
      * destruct x as [q|]; simpl in H.
        -- right. exists 0%nat. split; [lia | simpl; f_equal; exact H].
        -- left. assumption.
      * right. exists (S j). split; [lia | assumption].
Qed.

Lemma div_nan_bounds (p v lo hi w : Q) :
  0 <= v -> lo * v <= p -> p <= hi * v ->
  div_nan p (if Qeq_bool v 0 then None else Some v) = Some w ->
  lo <= w /\ w <= hi.
Proof.
  intros Hv Hlo Hhi H. destruct (Qeq_bool v 0) eqn:E; simpl in H; [discriminate|].
  apply Qeq_bool_neq in E. injection H as <-.
  assert (0 < v) by lra. split.
  - apply Qle_shift_div_l; assumption.
  - apply Qle_shift_div_r; assumption.
Qed.

Lemma raw_vwap_from_bounds (lo hi : Q) (bars : list Bar) : forall accpv accv i w,
  0 <= accv -> lo * accv <= accpv -> accpv <= hi * accv ->
  (forall b, In b (firstn (S i) bars) -> 0 <= Volume b /\ lo <= Close b /\ Close b <= hi) ->
  nth_error (raw_vwap_from accpv accv bars) i = Some (Some w) ->
  lo <= w /\ w <= hi.
Proof.
  induction bars as [|b r IH]; intros accpv accv i w Hv Hlo Hhi Hb H.
  - destruct i; discriminate.
  - destruct (Hb b) as (Hvb & Hlb & Hhb); [left; reflexivity|].
    assert (0 <= accv + Volume b) by lra.
    assert (lo * (accv + Volume b) <= accpv + Close b * Volume b) by nra.
    assert (accpv + Close b * Volume b <= hi * (accv + Volume b)) by nra.
    destruct i as [|i]; unfold raw_vwap_from in H; simpl in H.
    + injection H as H. eapply div_nan_bounds; eauto.
    + eapply (IH _ _ i w); eauto.
      intros b' Hin. apply Hb. right. exact Hin.
Qed.

Lemma raw_vwap_bounds (lo hi : Q) (bars : list Bar) (i : nat) (w : Q) :
  (forall b, In b (firstn (S i) bars) -> 0 <= Volume b /\ lo <= Close b /\ Close b <= hi) ->
  nth_error (zip_with div_nan (cumsum (map (fun b => Close b * Volume b) bars))
                      (replace0_nan (cumsum (map Volume bars)))) i = Some (Some w) ->
  lo <= w /\ w <= hi.
Proof.
  intros Hb H. destruct bars as [|b r]; [destruct i; discriminate|].
  destruct (Hb b) as (Hvb & Hlb & Hhb); [left; reflexivity|].
  destruct i as [|i]; simpl in H.
  - injection H as H. eapply div_nan_bounds; eauto; nra.
  - eapply (raw_vwap_from_bounds lo hi r _ _ i w); eauto; try nra.
    intros b' Hin. apply Hb. right. exact Hin.
Qed.

Lemma fold_min_le (l : list Q) : forall x,
  fold_left Qmin l x <= x /\ forall y, In y l -> fold_left Qmin l x <= y.
Proof.
  induction l as [|a r IH]; intros x; simpl.
  - split; [lra | tauto].
  - destruct (IH (Qmin x a)) as [H1 H2].
    pose proof (Q.le_min_l x a). pose proof (Q.le_min_r x a).
    split; [lra|]. intros y [<- | Hy]; [lra | auto].
Qed.

Lemma fold_max_ge (l : list Q) : forall x,
  x <= fold_left Qmax l x /\ forall y, In y l -> y <= fold_left Qmax l x.
Proof.
  induction l as [|a r IH]; intros x; simpl.
  - split; [lra | tauto].
  - destruct (IH (Qmax x a)) as [H1 H2].
    pose proof (Q.le_max_l x a). pose proof (Q.le_max_r x a).
    split; [lra|]. intros y [<- | Hy]; [lra | auto].
Qed.

Lemma min_low_lower (bars : list Bar) (lo : Q) :
  min_low bars = Some lo -> forall b, In b bars -> lo <= Low b.
Proof.
  destruct bars as [|b0 r]; [discriminate|]. intros [= <-] b [<- | Hin].
  - exact (proj1 (fold_min_le (map Low r) (Low b0))).
  - apply (proj2 (fold_min_le (map Low r) (Low b0))). apply in_map. exact Hin.
Qed.

Lemma max_high_upper (bars : list Bar) (hi : Q) :
  max_high bars = Some hi -> forall b, In b bars -> High b <= hi.
Proof.
  destruct bars as [|b0 r]; [discriminate|]. intros [= <-] b [<- | Hin].
  - exact (proj1 (fold_max_ge (map High r) (High b0))).
  - apply (proj2 (fold_max_ge (map High r) (High b0))). apply in_map. exact Hin.
Qed.

Lemma firstn_In_le {A : Type} (l : list A) : forall (j i : nat) (x : A),
  (j <= i)%nat -> In x (firstn j l) -> In x (firstn i l).
Proof.
  induction l as [|a r IH]; intros j i x Hle Hin.
  - destruct j; destruct Hin.
  - destruct j as [|j]; [destruct Hin|]. destruct i as [|i]; [lia|].
    simpl in *. destruct Hin as [-> | Hin]; [left; reflexivity|].
    right. apply (IH j i); [lia | exact Hin].
Qed.

Lemma firstn_In {A : Type} (l : list A) (n : nat) (x : A) :
  In x (firstn n l) -> In x l.
Proof.
  intros H. rewrite <- (firstn_skipn n l). apply in_or_app. left. exact H.
Qed.

Lemma bar_ok_close (b : Bar) : bar_ok b -> Low b <= Close b /\ Close b <= High b.
Proof.
  intros (H1 & H2 & _).
  pose proof (Q.le_max_r (Open b) (Close b)). pose proof (Q.le_min_r (Open b) (Close b)).
  split; lra.
Qed.

(** In exact arithmetic, on bars that satisfy the Bar invariants, every
    defined value at position [i] lies between the minimum of the lows and the
    maximum of the highs of bars [0..i]. *)
Lemma rolling_vwap_exact_range (bars : list Bar) :
  Forall bar_ok bars ->
  length (rolling_vwap bars) = length bars /\
  index (rolling_vwap bars) = map ts bars /\
  forall i w,
    nth_error (values (rolling_vwap bars)) i = Some (Some w) ->
    exists lo hi,
      min_low (firstn (S i) bars) = Some lo /\
      max_high (firstn (S i) bars) = Some hi /\
      lo <= w /\ w <= hi.
Proof.
  intros Hok. split; [apply rolling_vwap_length|]. split; [apply rolling_vwap_index|].
  intros i w H. rewrite rolling_vwap_values in H.
  apply ffill_from_nth in H. destruct H as [H | (j & Hj & H)]; [discriminate|].
  destruct bars as [|b0 r]; [destruct j; discriminate|].
  simpl firstn. unfold min_low, max_high.
  eexists; eexists. split; [reflexivity|]. split; [reflexivity|].
  set (lo := fold_left Qmin (map Low (firstn i r)) (Low b0)).
  set (hi := fold_left Qmax (map High (firstn i r)) (High b0)).
  assert (Hlo : forall b, In b (firstn (S i) (b0 :: r)) -> lo <= Low b).
  { apply min_low_lower. reflexivity. }
  assert (Hhi : forall b, In b (firstn (S i) (b0 :: r)) -> High b <= hi).
  { apply max_high_upper. reflexivity. }
  apply (raw_vwap_bounds lo hi (b0 :: r) j w); [|exact H].
  intros b Hin.
  assert (Hin' : In b (firstn (S i) (b0 :: r))).
  { apply (firstn_In_le (b0 :: r) (S j) (S i)); [lia | exact Hin]. }
  assert (Hb : bar_ok b).
  { rewrite Forall_forall in Hok. apply Hok. eapply firstn_In; eauto. }
  destruct (bar_ok_close b Hb). destruct Hb as (_ & _ & Hv).
  specialize (Hlo b Hin'). specialize (Hhi b Hin'). repeat split; try assumption; lra.
Qed.

Lemma f64_cumsum_from_length (l : list PrimFloat.float) :
  forall acc, length (F64.cumsum_from acc l) = length l.
Proof. induction l as [|x r IH]; intros acc; simpl; auto. Qed.

Lemma f64_cumsum_length (l : list PrimFloat.float) : length (F64.cumsum l) = length l.
Proof. destruct l; simpl; auto using f64_cumsum_from_length. Qed.

Lemma f64_ffill_from_length (l : list PrimFloat.float) :
  forall last, length (F64.ffill_from last l) = length l.
Proof. induction l as [|x r IH]; intros last; simpl; auto. Qed.

Lemma f64_vwap_values_length (bars : list F64.Bar) :
  length (F64.ffill
            (zip_with PrimFloat.div
               (F64.cumsum (map (fun b => PrimFloat.mul (F64.Close b) (F64.Volume b)) bars))
               (F64.replace0_nan (F64.cumsum (map F64.Volume bars))))) = length bars.
Proof.
  unfold F64.ffill, F64.replace0_nan.
  rewrite f64_ffill_from_length, zip_with_length, length_map.
  rewrite !f64_cumsum_length, !length_map. lia.
Qed.

Lemma f64_combine_index (l1 : list Z) (l2 : list PrimFloat.float) :
  length l1 = length l2 -> map fst (combine l1 l2) = l1.
Proof.
  revert l2; induction l1 as [|x r IH]; intros [|y l2] H; simpl in *; try discriminate; auto.
  f_equal; apply IH; lia.
Qed.

(** C5 (as amended). [rolling_vwap] gives one value per bar, on the
    bars' own index and in their order, with the code's binary64 arithmetic
    as with exact arithmetic.  With exact products, sums and quotient, on
    bars that satisfy the Bar invariants, every defined value at position [i]
    lies between the minimum of the lows and the maximum of the highs of bars
    [0..i]. *)
Theorem C5_rolling_vwap_shape_and_exact_range :
  (forall fbars : list F64.Bar,
     length (F64.rolling_vwap fbars) = length fbars /\
     F64.index (F64.rolling_vwap fbars) = map F64.ts fbars) /\
  (forall bars : list Bar,
     Forall bar_ok bars ->
     length (rolling_vwap bars) = length bars /\
     index (rolling_vwap bars) = map ts bars /\
     forall i w,
       nth_error (values (rolling_vwap bars)) i = Some (Some w) ->
       exists lo hi,
         min_low (firstn (S i) bars) = Some lo /\
         max_high (firstn (S i) bars) = Some hi /\
         lo <= w /\ w <= hi).
Proof.
  split; [|exact rolling_vwap_exact_range].
  intros fbars.
  assert (Hi : F64.index (F64.rolling_vwap fbars) = map F64.ts fbars).
  { unfold F64.rolling_vwap, F64.index. apply f64_combine_index.
    rewrite f64_vwap_values_length, length_map. reflexivity. }
  split; [|exact Hi].
  rewrite <- (length_map fst). fold (F64.index (F64.rolling_vwap fbars)).
  rewrite Hi. apply length_map.
Qed.

(** C5 (counterexample). With the code's binary64 arithmetic the range
    does not hold: for the single bar [F64.flat_bar], at 0.1 throughout with
    volume 3, the VWAP 0.1 * 3 / 3 is the next double above 0.1, the bar's
    high. *)
Lemma C5_counterexample :
  ~ (forall b w,
       F64.bar_ok b = true ->
       F64.values (F64.rolling_vwap [b]) = [w] ->
       PrimFloat.is_nan w = false ->
       PrimFloat.leb (F64.Low b) w && PrimFloat.leb w (F64.High b) = true).
Proof.
  intros H.
  assert (E : F64.values (F64.rolling_vwap [F64.flat_bar])
              = [PrimFloat.div (PrimFloat.mul F64.tenth (F64.Volume F64.flat_bar))
                               (F64.Volume F64.flat_bar)]).
  { vm_compute. reflexivity. }
  pose proof (H F64.flat_bar _ eq_refl E eq_refl) as Hb.
  vm_compute in Hb. discriminate.
Qed.

(** ** Label lookups *)

Lemma loc_length (s : Series) (t : Z) :
  length (loc s t) = count_occ Z.eq_dec (index s) t.
Proof.
  unfold loc, index. induction s as [|[k v] r IH]; [reflexivity|].
  simpl. destruct (Z.eq_dec k t) as [->|Hne].
  - rewrite Z.eqb_refl. simpl. f_equal. exact IH.
  - destruct (Z.eqb_spec k t); [contradiction | exact IH].
Qed.

Lemma loc_In (s : Series) (t : Z) (v : fnum) : In v (loc s t) <-> In (t, v) s.
Proof.
  unfold loc. rewrite in_map_iff. split.
  - intros ([k v'] & <- & Hin). apply filter_In in Hin. destruct Hin as [Hin Hk].
    simpl in *. apply Z.eqb_eq in Hk. subst k. exact Hin.
  - intros Hin. exists (t, v). split; [reflexivity|]. apply filter_In.
    split; [exact Hin | apply Z.eqb_refl].
Qed.

Lemma float_loc_once (s : Series) (t : Z) (v : fnum) :
  NoDup (index s) -> In (t, v) s -> float_loc s t = Ok v.
Proof.
  intros Hnd Hin. unfold float_loc.
  assert (Hlen : length (loc s t) = 1%nat).
  { rewrite loc_length. apply NoDup_count_occ'; [exact Hnd|].
    unfold index. apply in_map_iff. exists (t, v). auto. }
  apply loc_In in Hin.
  destruct (loc s t) as [|x [|y r]]; try discriminate.
  destruct Hin as [-> | []]. reflexivity.
Qed.

Lemma float_loc_twice (s : Series) (t : Z) :
  (2 <= count_occ Z.eq_dec (index s) t)%nat -> float_loc s t = Raise TypeError.
Proof.
  intros H. rewrite <- loc_length in H. unfold float_loc.
  destruct (loc s t) as [|x [|y r]]; simpl in H; try lia. reflexivity.
Qed.

Lemma float_loc_present (s : Series) (t : Z) :
  In t (index s) -> (exists v, float_loc s t = Ok v) \/ float_loc s t = Raise TypeError.
Proof.
  intros H. apply (count_occ_In Z.eq_dec) in H. rewrite <- loc_length in H.
  unfold float_loc. destruct (loc s t) as [|x [|y r]]; simpl in H; try lia; eauto.
Qed.

Lemma mem_index_In (s : Series) (t : Z) : mem_index t s = true <-> In t (index s).
Proof.
  unfold mem_index. rewrite existsb_exists. split.
  - intros (x & Hin & Hx). apply Z.eqb_eq in Hx. subst. exact Hin.
  - intros Hin. exists t. split; [exact Hin | apply Z.eqb_refl].
Qed.

(** ** Sorting by timestamp *)

Lemma insert_by_ts_perm (b : Bar) (l : list Bar) : Permutation (insert_by_ts b l) (b :: l).
Proof.
  induction l as [|x r IH]; simpl; [reflexivity|].
  destruct (ts b <=? ts x)%Z; [reflexivity|].
  rewrite IH. apply perm_swap.
Qed.

Lemma sort_index_perm (bars : list Bar) : Permutation (sort_index bars) bars.
Proof.
  induction bars as [|b r IH]; simpl; [reflexivity|].
  rewrite insert_by_ts_perm. apply perm_skip. exact IH.
Qed.

Lemma sort_index_length (bars : list Bar) : length (sort_index bars) = length bars.
Proof. apply Permutation_length, sort_index_perm. Qed.

Lemma sort_index_NoDup (bars : list Bar) :
  NoDup (map ts (sort_index bars)) <-> NoDup (map ts bars).
Proof.
  split; apply Permutation_NoDup, Permutation_map.
  - apply sort_index_perm.
  - symmetry. apply sort_index_perm.
Qed.

Lemma sort_index_sorted (bars : list Bar) :
  StronglySorted (fun a b => (ts a <= ts b)%Z) bars -> sort_index bars = bars.
Proof.
  induction 1 as [|b r Hs IH Hall]; simpl; [reflexivity|].
  rewrite IH. destruct r as [|x r']; [reflexivity|]. simpl.
  inversion Hall as [|? ? Hle _]; subst.
  destruct (Z.leb_spec (ts b) (ts x)); [reflexivity | lia].
Qed.

(** ** ATR looks at no later bar *)

Lemma zip_with_firstn {A B C : Type} (f : A -> B -> C) (l1 : list A) : forall (l2 : list B) n,
  firstn n (zip_with f l1 l2) = zip_with f (firstn n l1) (firstn n l2).
Proof.
  induction l1 as [|x r IH]; intros [|y l2] [|n]; simpl; auto.
  f_equal. apply IH.
Qed.

Lemma combine_firstn {A B : Type} (l1 : list A) : forall (l2 : list B) n,
  firstn n (combine l1 l2) = combine (firstn n l1) (firstn n l2).
Proof.
  induction l1 as [|x r IH]; intros [|y l2] [|n]; simpl; auto.
  f_equal. apply IH.
Qed.

Lemma removelast_firstn_some (l : list Q) : forall n,
  firstn n (map Some (removelast l)) = map Some (removelast (firstn (S n) l)).
Proof.
  induction l as [|a [|b r] IH]; intros n.
  - destruct n; reflexivity.
  - destruct n; reflexivity.
  - destruct n as [|n]; [reflexivity|].
    change (removelast (a :: b :: r)) with (a :: removelast (b :: r)).
    change (firstn (S (S n)) (a :: b :: r)) with (a :: b :: firstn n r).
    change (removelast (a :: b :: firstn n r)) with (a :: removelast (b :: firstn n r)).
    simpl map. simpl firstn. f_equal. apply (IH n).
Qed.

Lemma shift1_firstn (l : list Q) (n : nat) :
  firstn n (shift1 l) = shift1 (firstn n l).
Proof.
  destruct l as [|a r]; [destruct n; reflexivity|].
  destruct n as [|n]; [reflexivity|].
  unfold shift1. change (firstn (S n) (a :: r)) with (a :: firstn n r).
  change (firstn (S n) (None :: map Some (removelast (a :: r))))
    with (None :: firstn n (map Some (removelast (a :: r)))).
  cbv iota. f_equal. apply (removelast_firstn_some (a :: r) n).
Qed.

Lemma ffill_from_firstn (l : list fnum) : forall last n,
  firstn n (ffill_from last l) = ffill_from last (firstn n l).
Proof.
  induction l as [|x r IH]; intros last [|n]; simpl; auto.
  f_equal. apply IH.
Qed.

Lemma rolling_mean_from_firstn (w m : nat) (l : list Q) : forall hist n,
  firstn n (rolling_mean_from w m hist l) = rolling_mean_from w m hist (firstn n l).
Proof.
  induction l as [|x r IH]; intros hist [|n]; simpl; auto.
  f_equal. apply IH.
Qed.

Lemma true_range_firstn (bars : list Bar) (n : nat) :
  firstn n (true_range bars) = true_range (firstn n bars).
Proof.
  unfold true_range, np_maximum, prev_close_of, fillna_with.
  repeat (rewrite zip_with_firstn || rewrite firstn_map || rewrite shift1_firstn).
  reflexivity.
Qed.

Lemma atr_of_firstn (bars : list Bar) (n : nat) :
  firstn n (atr_of bars) = atr_of (firstn n bars).
Proof.
  unfold atr_of, on_index, ffill, rolling_mean.
  rewrite combine_firstn, firstn_map, ffill_from_firstn, rolling_mean_from_firstn.
  rewrite true_range_firstn. reflexivity.
Qed.

Lemma nth_error_firstn_S {A : Type} (l : list A) (i : nat) :
  nth_error (firstn (S i) l) i = nth_error l i.
Proof.
  rewrite nth_error_firstn. destruct (Nat.ltb_spec i (S i)); [reflexivity | lia].
Qed.

(** C6. Two bar sequences that agree on bars [0..i] have the same ATR
    at index [i]: bars after [i] have no influence on it.  For sequences in
    time order this is the ATR series the detector itself computes, after
    its own [dropna] and [sort_index]. *)
Theorem C6_atr_causal (bars1 bars2 : list Bar) (i : nat) :
  firstn (S i) bars1 = firstn (S i) bars2 ->
  nth_error (atr_of bars1) i = nth_error (atr_of bars2) i /\
  (StronglySorted (fun a b => (ts a <= ts b)%Z) bars1 ->
   StronglySorted (fun a b => (ts a <= ts b)%Z) bars2 ->
   nth_error (atr_of (sort_index (dropna bars1))) i
   = nth_error (atr_of (sort_index (dropna bars2))) i).
Proof.
  intros H.
  assert (Hc : nth_error (atr_of bars1) i = nth_error (atr_of bars2) i).
  { rewrite <- (nth_error_firstn_S (atr_of bars1)), <- (nth_error_firstn_S (atr_of bars2)).
    rewrite !atr_of_firstn, H. reflexivity. }
  split; [exact Hc|]. intros H1 H2. unfold dropna.
  rewrite (sort_index_sorted bars1 H1), (sort_index_sorted bars2 H2). exact Hc.
Qed.

Lemma C6_witness :
  nth_error (atr_of (gap_down_bars ++ [mkBar 34800 1 2 1 1 5])) 1
  = nth_error (atr_of (gap_down_bars ++ [mkBar 34800 90 99 80 95 7; mkBar 35100 95 96 94 95 1])) 1.
Proof.
  destruct (C6_atr_causal (gap_down_bars ++ [mkBar 34800 1 2 1 1 5])
              (gap_down_bars ++ [mkBar 34800 90 99 80 95 7; mkBar 35100 95 96 94 95 1]) 1)
    as [H _].
  - reflexivity.
  - exact H.
Defined.

(** ** True range *)

Lemma prev_close_gen_cons (h : fnum) (b : Bar) (r : list Bar) :
  prev_close_gen h (b :: r)
  = match h with Some x => x | None => Open b end :: prev_close_gen (Some (Close b)) r.
Proof.
  unfold prev_close_gen, fillna_with. destruct r as [|b' r']; reflexivity.
Qed.

Lemma true_range_gen_cons (h : fnum) (b : Bar) (r : list Bar) :
  true_range_gen h (b :: r)
  = Qmax (High b - Low b) (Qabs (High b - match h with Some x => x | None => Open b end))
      :: true_range_gen (Some (Close b)) r.
Proof.
  unfold true_range_gen. rewrite prev_close_gen_cons. reflexivity.
Qed.

Lemma true_range_gen_two_term (bars : list Bar) : forall h,
  true_range_gen h bars
  = match bars with
    | [] => []
    | b :: _ => two_term_range_from (match h with Some x => x | None => Open b end) bars
    end.
Proof.
  induction bars as [|b r IH]; intros h; [reflexivity|].
  rewrite true_range_gen_cons, IH. simpl. f_equal. destruct r; reflexivity.
Qed.

(** For every bar sequence the third term, |low - prev_close|, is absent from
    the computed true range. *)
Lemma true_range_two_term (bars : list Bar) :
  true_range bars
  = match bars with
    | [] => []
    | b :: _ => two_term_range_from (Open b) bars
    end.
Proof.
  destruct bars as [|b r]; [reflexivity|].
  change (true_range (b :: r)) with (true_range_gen None (b :: r)).
  apply (true_range_gen_two_term (b :: r) None).
Qed.

(** C1. On a bar that opens far below the previous close (previous
    close 20, high 11, low 10) the computed true range is 9, the maximum of
    high - low and |high - prev_close|, where the three-term maximum of the
    specification is 10: the term |low - prev_close| is passed to
    [np.maximum] as its output buffer and never compared. *)
Theorem C1_true_range_misses_low_term :
  (exists v, nth_error (true_range gap_down_bars) 1 = Some v /\ v == 9) /\
  (exists v, nth_error (spec_true_range gap_down_bars) 1 = Some v /\ v == 10) /\
  Forall2 Qeq (values_of_atr gap_down_bars) [2; 11 # 2].
Proof.
  split; [|split].
  - eexists. split; [reflexivity|]. vm_compute. reflexivity.
  - eexists. split; [reflexivity|]. vm_compute. reflexivity.
  - vm_compute. repeat constructor.
Qed.

(** ** Premarket reference *)

Lemma pm_mask_before_cutoff (t : Z) : pm_mask 9 30 t = true <-> before_cutoff t.
Proof.
  unfold pm_mask, before_cutoff, hour, minute.
  rewrite orb_true_iff, andb_true_iff, !Z.ltb_lt, Z.eqb_eq.
  split; intros H; Z.to_euclidean_division_equations; lia.
Qed.

Lemma Qmax_cases (x y : Q) : (Qmax x y = x /\ y <= x) \/ (Qmax x y = y /\ x <= y).
Proof.
  unfold Qmax, GenericMinMax.gmax. destruct (x ?= y) eqn:E.
  - left. split; [reflexivity|]. apply Qeq_alt in E. lra.
  - right. split; [reflexivity|]. apply Qlt_alt in E. lra.
  - left. split; [reflexivity|]. apply Qgt_alt in E. lra.
Qed.

Lemma column_max_spec (l : list Q) : forall x,
  (column_max x l = x \/ In (column_max x l) l) /\
  x <= column_max x l /\ forall y, In y l -> y <= column_max x l.
Proof.
  unfold column_max. induction l as [|a r IH]; intros x; simpl.
  - split; [left; reflexivity|]. split; [lra | tauto].
  - destruct (IH (Qmax x a)) as (Hin & Hx & Hall).
    pose proof (Q.le_max_l x a). pose proof (Q.le_max_r x a).
    split; [|split; [lra|]].
    + destruct Hin as [Heq | Hin]; [|right; right; exact Hin].
      rewrite Heq. destruct (Qmax_cases x a) as [[-> _] | [-> _]]; auto.
    + intros y [<- | Hy]; [lra | auto].
Qed.

(** C7. The premarket reference is the maximum [high] among the bars
    whose local time of day is strictly before 09:30, over the whole input
    whatever the day, and is undefined exactly when no such bar exists (in
    particular on an empty input). *)
Theorem C7_premarket_high_is_max (df_5m : list Bar) :
  (compute_premarket_high df_5m 9 30 = None <->
   forall b, In b df_5m -> ~ before_cutoff (ts b)) /\
  (forall m, compute_premarket_high df_5m 9 30 = Some m ->
     (exists b, In b df_5m /\ before_cutoff (ts b) /\ High b = m) /\
     (forall b, In b df_5m -> before_cutoff (ts b) -> High b <= m)) /\
  compute_premarket_high [] 9 30 = None.
Proof.
  assert (Hf : forall b, In b (filter (fun b => pm_mask 9 30 (ts b)) df_5m)
                         <-> In b df_5m /\ before_cutoff (ts b)).
  { intros b. rewrite filter_In, pm_mask_before_cutoff. reflexivity. }
  unfold compute_premarket_high.
  destruct df_5m as [|b0 r0] eqn:Edf.
  { split; [|split; [|reflexivity]].
    - split; [intros _ b [] | reflexivity].
    - intros m H. discriminate. }
  rewrite <- Edf in *. clear Edf.
  destruct (filter (fun b => pm_mask 9 30 (ts b)) df_5m) as [|b r] eqn:E.
  - split; [|split; [|reflexivity]].
    + split; [|reflexivity]. intros _ x Hin Hc.
      destruct (proj2 (Hf x) (conj Hin Hc)).
    + intros m H. discriminate.
  - split; [|split; [|reflexivity]].
    + split; [discriminate|]. intros H. exfalso.
      destruct (proj1 (Hf b)) as [Hin Hc]; [left; reflexivity|]. exact (H b Hin Hc).
    + intros m [= <-].
      destruct (column_max_spec (map High r) (High b)) as (Hatt & Hx & Hall). split.
      * destruct Hatt as [Heq | Hin].
        -- exists b. destruct (proj1 (Hf b)) as [Hb Hc]; [left; reflexivity|]. auto.
        -- apply in_map_iff in Hin. destruct Hin as (x & Hx' & Hinx).
           exists x. destruct (proj1 (Hf x)) as [Hb Hc]; [right; exact Hinx|]. auto.
      * intros x Hin Hc. destruct (proj2 (Hf x) (conj Hin Hc)) as [<- | Hin'].
        -- exact Hx.
        -- apply Hall. apply in_map. exact Hin'.
Qed.

(** ** The loop against the pure pass *)

Lemma shift1_length (l : list Q) : length (shift1 l) = length l.
Proof.
  destruct l as [|a r]; [reflexivity|]. unfold shift1.
  cbn [length]. rewrite length_map, removelast_firstn_len, length_firstn.
  cbn [length]. lia.
Qed.

Lemma true_range_length (bars : list Bar) : length (true_range bars) = length bars.
Proof.
  unfold true_range, np_maximum, prev_close_of, fillna_with.
  repeat (rewrite zip_with_length || rewrite length_map || rewrite shift1_length). lia.
Qed.

Lemma atr_values_length (bars : list Bar) :
  length (ffill (rolling_mean 14 1 (true_range bars))) = length bars.
Proof.
  unfold ffill, rolling_mean.
  rewrite ffill_from_length, rolling_mean_from_length. apply true_range_length.
Qed.

Lemma atr_of_index (bars : list Bar) : index (atr_of bars) = map ts bars.
Proof.
  unfold atr_of, on_index, index. apply combine_index.
  rewrite atr_values_length, length_map. reflexivity.
Qed.

Lemma atr_of_values (bars : list Bar) :
  values (atr_of bars) = ffill (rolling_mean 14 1 (true_range bars)).
Proof.
  unfold atr_of, on_index, values. apply combine_values.
  rewrite atr_values_length, length_map. reflexivity.
Qed.

Lemma series_rebuild (s : Series) : s = combine (index s) (values s).
Proof.
  unfold index, values. induction s as [|[k v] r IH]; simpl; [reflexivity|].
  f_equal. exact IH.
Qed.

Lemma indicator_rows_bars (bars : list Bar) :
  map (fun x => fst (fst x)) (indicator_rows bars) = bars.
Proof.
  unfold indicator_rows.
  assert (H1 : length (values (rolling_vwap bars)) = length bars).
  { rewrite rolling_vwap_values. apply vwap_values_length. }
  assert (H2 : length (values (atr_of bars)) = length bars).
  { rewrite atr_of_values. apply atr_values_length. }
  revert H1 H2. generalize (values (rolling_vwap bars)) (values (atr_of bars)).
  induction bars as [|b r IH]; intros [|v vs] [|a al] H1 H2; simpl in *; try discriminate; auto.
  f_equal. apply IH; lia.
Qed.

Lemma combine3_In {A : Type} (f : A -> Z) (l : list A) : forall (vs al : list fnum) x v a,
  In (x, v, a) (combine (combine l vs) al) ->
  In (f x, v) (combine (map f l) vs) /\ In (f x, a) (combine (map f l) al).
Proof.
  induction l as [|y r IH]; intros [|v0 vs] [|a0 al] x v a H; simpl in H; try contradiction.
  destruct H as [H | H].
  - injection H as -> -> ->. split; left; reflexivity.
  - destruct (IH vs al x v a H). split; right; assumption.
Qed.

Lemma indicator_rows_In (bars : list Bar) (row : Bar) (v a : fnum) :
  In (row, v, a) (indicator_rows bars) ->
  In (ts row, v) (rolling_vwap bars) /\ In (ts row, a) (atr_of bars).
Proof.
  intros H. unfold indicator_rows in H.
  destruct (combine3_In ts bars _ _ _ _ _ H) as [H1 H2].
  rewrite <- (rolling_vwap_index bars), <- series_rebuild in H1.
  rewrite <- (atr_of_index bars), <- series_rebuild in H2.
  split; assumption.
Qed.

Lemma bind_ok {A B : Type} (m : result A) (k : A -> result B) (a : A) :
  m = Ok a -> bind m k = k a.
Proof. intros ->. reflexivity. Qed.

Section DetectLoop.

Variables (vwap atr : Series) (pm : option Q).

Lemma detect_loop_pure (inputs : list (Bar * fnum * fnum)) :
  NoDup (index vwap) -> NoDup (index atr) ->
  (forall row v a, In (row, v, a) inputs -> In (ts row, v) vwap /\ In (ts row, a) atr) ->
  forall st evs,
    detect_loop vwap atr pm (map (fun x => fst (fst x)) inputs) st evs
    = Ok (evs ++ flat_events (run_rules pm inputs st)).
Proof.
  intros Hv Ha. induction inputs as [|[[row v] a] rest IH]; intros Hin st evs.
  - simpl. rewrite app_nil_r. reflexivity.
  - destruct (Hin row v a) as [H1 H2]; [left; reflexivity|].
    simpl map. cbn [detect_loop].
    rewrite (bind_ok _ _ v) by (apply float_loc_once; assumption).
    assert (Hm : mem_index (ts row) atr = true).
    { apply mem_index_In. unfold index. apply in_map_iff. exists (ts row, a). auto. }
    rewrite Hm. rewrite (bind_ok _ _ a) by (apply float_loc_once; assumption).
    destruct (bar_rules pm st row v a) as [ev st'] eqn:E.
    rewrite IH by (intros; apply Hin; right; assumption).
    simpl run_rules. rewrite E. simpl fst. simpl snd.
    unfold flat_events. simpl flat_map. rewrite app_assoc. reflexivity.
Qed.

Lemma detect_loop_no_key_error (rows : list Bar) :
  (forall row, In row rows -> In (ts row) (index vwap) /\ In (ts row) (index atr)) ->
  forall st evs,
    (exists out, detect_loop vwap atr pm rows st evs = Ok out) \/
    detect_loop vwap atr pm rows st evs = Raise TypeError.
Proof.
  induction rows as [|row rest IH]; intros Hin st evs.
  - left. eexists. reflexivity.
  - destruct (Hin row) as [H1 H2]; [left; reflexivity|]. cbn [detect_loop].
    destruct (float_loc_present vwap (ts row) H1) as [[v ->] | ->]; [|right; reflexivity].
    cbn [bind]. rewrite (proj2 (mem_index_In atr (ts row)) H2).
    destruct (float_loc_present atr (ts row) H2) as [[a ->] | ->]; [|right; reflexivity].
    cbn [bind]. destruct (bar_rules pm st row v a) as [ev st'].
    apply IH. intros; apply Hin; right; assumption.
Qed.

Lemma detect_loop_duplicate (rows : list Bar) (row : Bar) :
  In row rows -> (2 <= count_occ Z.eq_dec (index vwap) (ts row))%nat ->
  forall st evs out, detect_loop vwap atr pm rows st evs <> Ok out.
Proof.
  intros Hin Hc. induction rows as [|r rest IH]; intros st evs out; [destruct Hin|].
  cbn [detect_loop]. destruct Hin as [-> | Hin].
  - rewrite float_loc_twice by exact Hc. discriminate.
  - destruct (float_loc vwap (ts r)) as [v|e]; [|discriminate]. cbn [bind].
    destruct (if mem_index (ts r) atr then float_loc atr (ts r) else iloc_last atr)
      as [a|e]; [|discriminate].
    cbn [bind]. destruct (bar_rules pm st r v a) as [ev st']. apply IH. exact Hin.
Qed.

End DetectLoop.

Lemma duplicate_label (l : list Z) :
  ~ NoDup l -> exists t, In t l /\ (2 <= count_occ Z.eq_dec l t)%nat.
Proof.
  induction l as [|a r IH]; intros H.
  - exfalso. apply H. constructor.
  - destruct (in_dec Z.eq_dec a r) as [Hin | Hnin].
    + exists a. split; [left; reflexivity|].
      rewrite count_occ_cons_eq by reflexivity.
      apply (count_occ_In Z.eq_dec) in Hin. lia.
    + destruct IH as (t & Ht & Hc).
      { intros Hnd. apply H. constructor; assumption. }
      exists t. split; [right; exact Ht|].
      simpl. destruct (Z.eq_dec a t); lia.
Qed.

Lemma five_min_signals_distinct (bars : list Bar) (pm : option Q) :
  NoDup (map ts bars) -> five_min_signals bars pm = Ok (pure_events pm (sort_index bars)).
Proof.
  intros Hnd. apply sort_index_NoDup in Hnd. unfold five_min_signals, dropna, pure_events.
  destruct (sort_index bars) as [|b r] eqn:E; [reflexivity|].
  rewrite <- E in *. clear E.
  rewrite <- (indicator_rows_bars (sort_index bars)) at 3.
  rewrite detect_loop_pure; [reflexivity | | | ].
  - rewrite rolling_vwap_index. exact Hnd.
  - rewrite atr_of_index. exact Hnd.
  - intros row v a. apply indicator_rows_In.
Qed.

Lemma five_min_signals_duplicate (bars : list Bar) (pm : option Q) :
  ~ NoDup (map ts bars) -> five_min_signals bars pm = Raise TypeError.
Proof.
  intros Hnd. rewrite <- sort_index_NoDup in Hnd.
  unfold five_min_signals, dropna.
  destruct (sort_index bars) as [|b r] eqn:E.
  { exfalso. apply Hnd. constructor. }
  rewrite <- E in *. clear E.
  destruct (duplicate_label _ Hnd) as (t & Ht & Hc).
  apply in_map_iff in Ht. destruct Ht as (row & <- & Hrow).
  destruct (detect_loop_no_key_error (rolling_vwap (sort_index bars))
              (atr_of (sort_index bars)) pm (sort_index bars)) with (st := @None Q) (evs := @nil Event)
    as [[out Hout] | Hr].
  - intros x Hx. rewrite rolling_vwap_index, atr_of_index. split; apply in_map; exact Hx.
  - exfalso. revert Hout. apply detect_loop_duplicate with (row := row); [exact Hrow|].
    rewrite rolling_vwap_index. exact Hc.
  - exact Hr.
Qed.

Lemma five_min_signals_cases (bars : list Bar) (pm : option Q) :
  (NoDup (map ts bars) /\ five_min_signals bars pm = Ok (pure_events pm (sort_index bars))) \/
  (~ NoDup (map ts bars) /\ five_min_signals bars pm = Raise TypeError).
Proof.
  destruct (ListDec.NoDup_dec Z.eq_dec (map ts bars)) as [H | H].
  - left. split; [exact H | apply five_min_signals_distinct; exact H].
  - right. split; [exact H | apply five_min_signals_duplicate; exact H].
Qed.

(** C9 (as amended). The detector checks neither the high/low
    invariants nor the order of its input.  Whenever the timestamps are
    pairwise distinct it succeeds, whatever the prices and whatever the input
    order, with the events of the rules applied to the bars sorted by
    timestamp; it fails, with the TypeError of the label lookup, exactly when
    two bars share a timestamp. *)
Theorem C9_fails_only_on_duplicate_timestamps (bars : list Bar) (pm : option Q) :
  (NoDup (map ts bars) <-> five_min_signals bars pm = Ok (pure_events pm (sort_index bars))) /\
  (~ NoDup (map ts bars) <-> five_min_signals bars pm = Raise TypeError).
Proof.
  destruct (five_min_signals_cases bars pm) as [[Hnd H] | [Hnd H]]; rewrite H.
  - split; split; auto; try discriminate. intros Hn. contradiction.
  - split; split; auto; try discriminate. intros Hn. contradiction.
Qed.

(** C9 (counterexample). Not every malformed sequence fails: the single
    bar of [inverted_bars], whose high lies below its low, is processed
    without any error. *)
Lemma C9_counterexample :
  ~ (forall bars pm,
       ~ Forall bar_ok bars \/ ~ StronglySorted (fun a b => (ts a < ts b)%Z) bars ->
       exists e, five_min_signals bars pm = Raise e).
Proof.
  intros H. destruct (H inverted_bars None) as [e He].
  - left. intros Hok. inversion Hok as [|? ? (H1 & _) _]; subst.
    revert H1. vm_compute. intros H1. apply H1. reflexivity.
  - vm_compute in He. discriminate.
Qed.

(** ** One bar, one rule *)

Lemma bar_rules_spec (pm : option Q) (st : PositionState) (row : Bar) (v a : fnum) :
  bar_rules pm st row v a = spec_bar_rules pm st row v a.
Proof.
  unfold bar_rules, spec_bar_rules, rule_priority, emit. cbn [find rule_matches].
  destruct (match pm with Some p => Qltb p (Close row) | None => false end); [reflexivity|].
  destruct (fgt (Close row) v && Qltb (Open row) (Close row)); [reflexivity|].
  destruct (flt (Close row) v); [reflexivity|].
  destruct (detect_long_wick row); [reflexivity|].
  destruct st as [entry|]; [|reflexivity].
  destruct (fle (Close row) (option_map (fun x => entry - (3 # 2) * x) a)); reflexivity.
Qed.

Lemma bar_rules_event (pm : option Q) (st : PositionState) (row : Bar) (v a : fnum) (e : Event) :
  fst (bar_rules pm st row v a) = Some e ->
  ev_ts e = ts row /\ ev_price e = Close row /\ ev_kind e = rule_kind (ev_reason e) /\
  rule_matches (ev_reason e) pm st row v a = true /\
  snd (bar_rules pm st row v a)
  = match ev_kind e with ENTRY => Some (Close row) | EXIT => None end.
Proof.
  rewrite bar_rules_spec. unfold spec_bar_rules.
  destruct (find _ rule_priority) as [r|] eqn:E; [|discriminate].
  apply find_some in E. destruct E as [_ E].
  intros [= <-]. simpl. auto.
Qed.

Lemma bar_rules_silent (pm : option Q) (st : PositionState) (row : Bar) (v a : fnum) :
  fst (bar_rules pm st row v a) = None -> snd (bar_rules pm st row v a) = st.
Proof.
  rewrite bar_rules_spec. unfold spec_bar_rules.
  destruct (find _ rule_priority); [discriminate | reflexivity].
Qed.

Lemma run_rules_length (pm : option Q) (inputs : list (Bar * fnum * fnum)) :
  forall st, length (run_rules pm inputs st) = length inputs.
Proof.
  induction inputs as [|[[row v] a] rest IH]; intros st; simpl; auto.
Qed.

Lemma run_rules_timestamps (pm : option Q) (inputs : list (Bar * fnum * fnum)) :
  forall st,
    Forall2 (fun b o => forall e, o = Some e -> ev_ts e = ts b)
            (map (fun x => fst (fst x)) inputs) (run_rules pm inputs st).
Proof.
  induction inputs as [|[[row v] a] rest IH]; intros st; simpl; constructor.
  - intros e He. apply bar_rules_event in He. tauto.
  - apply IH.
Qed.

Lemma flat_events_length (outs : list (option Event)) :
  (length (flat_events outs) <= length outs)%nat.
Proof.
  induction outs as [|[e|] r IH]; simpl; lia.
Qed.

Lemma flat_events_In (bars : list Bar) (outs : list (option Event)) :
  Forall2 (fun b o => forall e, o = Some e -> ev_ts e = ts b) bars outs ->
  forall e, In e (flat_events outs) -> In (ev_ts e) (map ts bars).
Proof.
  induction 1 as [|b o bars outs Hbo _ IH]; intros e Hin; [destruct Hin|].
  unfold flat_events in Hin. simpl in Hin. apply in_app_or in Hin.
  destruct Hin as [Hin | Hin].
  - destruct o as [e0|]; [|destruct Hin]. destruct Hin as [<- | []].
    left. symmetry. apply Hbo. reflexivity.
  - right. apply IH. exact Hin.
Qed.

Lemma flat_events_NoDup (bars : list Bar) (outs : list (option Event)) :
  Forall2 (fun b o => forall e, o = Some e -> ev_ts e = ts b) bars outs ->
  NoDup (map ts bars) -> NoDup (map ev_ts (flat_events outs)).
Proof.
  induction 1 as [|b o bars outs Hbo Hall IH]; intros Hnd; [constructor|].
  inversion Hnd as [|? ? Hnin Hnd']; subst.
  destruct o as [e0|]; [|apply IH; exact Hnd'].
  change (flat_events (Some e0 :: outs)) with (e0 :: flat_events outs).
  simpl map. constructor; [|apply IH; exact Hnd'].
  intros Hin. apply in_map_iff in Hin. destruct Hin as (e & He & Hin).
  apply (flat_events_In bars outs Hall) in Hin.
  rewrite He, (Hbo e0 eq_refl) in Hin. contradiction.
Qed.

Lemma run_rules_spec_run (pm : option Q) (inputs : list (Bar * fnum * fnum)) :
  forall st, run_rules pm inputs st = spec_run_rules pm inputs st.
Proof.
  induction inputs as [|[[row v] a] rest IH]; intros st; simpl; [reflexivity|].
  rewrite bar_rules_spec, IH. reflexivity.
Qed.

Lemma run_rules_nth (pm : option Q) (inputs : list (Bar * fnum * fnum)) :
  forall st i row v a,
    nth_error inputs i = Some (row, v, a) ->
    exists st', nth_error (run_rules pm inputs st) i = Some (fst (bar_rules pm st' row v a)).
Proof.
  induction inputs as [|[[row0 v0] a0] rest IH]; intros st i row v a H;
    [destruct i; discriminate|].
  destruct i as [|i]; simpl in H.
  - injection H as -> -> ->. exists st. reflexivity.
  - apply (IH (snd (bar_rules pm st row0 v0 a0))) in H. exact H.
Qed.

Lemma indicator_rows_nth (bars : list Bar) (i : nat) (b : Bar) :
  nth_error bars i = Some b ->
  exists v a, nth_error (indicator_rows bars) i = Some (b, v, a).
Proof.
  intros H. rewrite <- (indicator_rows_bars bars) in H. rewrite nth_error_map in H.
  destruct (nth_error (indicator_rows bars) i) as [[[row v] a]|]; [|discriminate].
  simpl in H. injection H as ->. exists v, a. reflexivity.
Qed.

Lemma events_at_none (bars : list Bar) (outs : list (option Event)) (t : Z) :
  Forall2 (fun b o => forall e, o = Some e -> ev_ts e = ts b) bars outs ->
  ~ In t (map ts bars) -> events_at t (flat_events outs) = [].
Proof.
  intros HF Hnin. unfold events_at.
  destruct (filter _ (flat_events outs)) as [|e r] eqn:E; [reflexivity|].
  exfalso. assert (Hin : In e (filter (fun e => (ev_ts e =? t)%Z) (flat_events outs))).
  { rewrite E. left. reflexivity. }
  apply filter_In in Hin. destruct Hin as [Hin Ht]. apply Z.eqb_eq in Ht.
  apply (flat_events_In bars outs HF) in Hin. rewrite Ht in Hin. contradiction.
Qed.

Lemma events_at_bar (bars : list Bar) (outs : list (option Event)) :
  Forall2 (fun b o => forall e, o = Some e -> ev_ts e = ts b) bars outs ->
  NoDup (map ts bars) ->
  forall i b o, nth_error bars i = Some b -> nth_error outs i = Some o ->
    events_at (ts b) (flat_events outs) = opt_list o.
Proof.
  induction 1 as [|b0 o0 bars outs Hbo Hall IH]; intros Hnd i b o Hb Ho;
    [destruct i; discriminate|].
  simpl in Hnd. inversion Hnd as [|? ? Hnin Hnd']; subst.
  unfold events_at, flat_events. simpl flat_map. rewrite filter_app.
  fold (flat_events outs). fold (events_at (ts b) (flat_events outs)).
  destruct i as [|i]; simpl in Hb, Ho.
  - injection Hb as ->. injection Ho as ->.
    rewrite (events_at_none bars outs (ts b) Hall Hnin), app_nil_r.
    destruct o as [e|]; [|reflexivity]. simpl.
    rewrite (Hbo e eq_refl), Z.eqb_refl. reflexivity.
  - rewrite (IH Hnd' i b o Hb Ho).
    assert (Hne : ts b0 <> ts b).
    { intros Heq. apply Hnin. rewrite Heq. apply in_map. eapply nth_error_In. exact Hb. }
    destruct o0 as [e|]; [|reflexivity]. simpl.
    rewrite (Hbo e eq_refl). destruct (Z.eqb_spec (ts b0) (ts b)); [contradiction | reflexivity].
Qed.

(** C3. The detector's events are those of the five rules taken in
    priority order, bar after bar in time order, the first rule that matches
    deciding each bar: one optional event per bar, stamped with that bar's
    timestamp, so at most one event per bar and no more events than bars.  A
    bar that both closes above the premarket high and has a long wick
    contributes the break_premarket ENTRY and nothing else. *)
Theorem C3_first_matching_rule_one_event_per_bar (bars : list Bar) (pm : option Q) :
  (forall st row v a, bar_rules pm st row v a = spec_bar_rules pm st row v a) /\
  (NoDup (map ts bars) -> exists evs, five_min_signals bars pm = Ok evs) /\
  (forall evs, five_min_signals bars pm = Ok evs ->
     evs = flat_events (spec_run_rules pm (indicator_rows (sort_index bars)) None) /\
     Forall2 (fun b o => forall e, o = Some e -> ev_ts e = ts b) (sort_index bars)
             (spec_run_rules pm (indicator_rows (sort_index bars)) None) /\
     (forall b, In b bars -> (length (events_at (ts b) evs) <= 1)%nat) /\
     NoDup (map ev_ts evs) /\
     (length evs <= length bars)%nat) /\
  (forall evs b p,
     five_min_signals bars pm = Ok evs -> In b bars ->
     pm = Some p -> p < Close b -> detect_long_wick b = true ->
     events_at (ts b) evs = [mkEvent (ts b) ENTRY break_premarket (Close b)]).
Proof.
  assert (Hrun : forall evs, five_min_signals bars pm = Ok evs ->
            NoDup (map ts (sort_index bars)) /\
            evs = flat_events (run_rules pm (indicator_rows (sort_index bars)) None)).
  { intros evs H.
    destruct (five_min_signals_cases bars pm) as [[Hnd H'] | [_ H']];
      rewrite H' in H; [|discriminate].
    injection H as <-. split; [apply sort_index_NoDup; exact Hnd | reflexivity]. }
  assert (HF : Forall2 (fun b o => forall e, o = Some e -> ev_ts e = ts b) (sort_index bars)
                 (run_rules pm (indicator_rows (sort_index bars)) None)).
  { rewrite <- (indicator_rows_bars (sort_index bars)) at 1. apply run_rules_timestamps. }
  assert (Hat : forall evs b, five_min_signals bars pm = Ok evs -> In b bars ->
            exists v a st,
              events_at (ts b) evs = opt_list (fst (bar_rules pm st b v a))).
  { intros evs b H Hb. destruct (Hrun evs H) as [Hnd ->].
    apply (Permutation_in _ (Permutation_sym (sort_index_perm bars))) in Hb.
    apply In_nth_error in Hb. destruct Hb as [i Hi].
    destruct (indicator_rows_nth _ _ _ Hi) as (v & a & Hrow).
    destruct (run_rules_nth pm _ None _ _ _ _ Hrow) as [st Hout].
    exists v, a, st. apply (events_at_bar _ _ HF Hnd i); assumption. }
  split; [|split; [|split]].
  - intros. apply bar_rules_spec.
  - intros Hnd. eexists. apply five_min_signals_distinct. exact Hnd.
  - intros evs H. destruct (Hrun evs H) as [Hnd Hev].
    rewrite <- run_rules_spec_run. split; [exact Hev|]. split; [exact HF|]. split; [|split].
    + intros b Hb. destruct (Hat evs b H Hb) as (v & a & st & ->).
      destruct (fst (bar_rules pm st b v a)); simpl; lia.
    + rewrite Hev. apply (flat_events_NoDup _ _ HF). exact Hnd.
    + rewrite Hev. etransitivity; [apply flat_events_length|].
      rewrite run_rules_length. rewrite <- (length_map (fun x => fst (fst x))).
      rewrite indicator_rows_bars. rewrite sort_index_length. lia.
  - intros evs b p H Hb -> Hp _. destruct (Hat evs b H Hb) as (v & a & st & ->).
    unfold bar_rules, emit. rewrite (proj2 (Qltb_lt p (Close b)) Hp). reflexivity.
Qed.

(** ** Exits and the position state *)

Lemma atr_stop_needs_entry (pm : option Q) (st : PositionState) (row : Bar) (v a : fnum)
    (e : Event) :
  fst (bar_rules pm st row v a) = Some e -> ev_reason e = atr_stop ->
  ev_kind e = EXIT /\ exists entry, st = Some entry.
Proof.
  intros He Hr. apply bar_rules_event in He.
  destruct He as (_ & _ & Hk & Hm & _). rewrite Hr in Hk, Hm. split; [exact Hk|].
  simpl in Hm. destruct st as [entry|]; [eauto | discriminate].
Qed.

Lemma run_rules_atr_stop (pm : option Q) (inputs : list (Bar * fnum * fnum)) :
  forall st pre e post,
    flat_events (run_rules pm inputs st) = pre ++ e :: post ->
    ev_reason e = atr_stop ->
    (pre = [] /\ exists entry, st = Some entry) \/
    (exists pre' en, pre = pre' ++ [en] /\ ev_kind en = ENTRY).
Proof.
  induction inputs as [|[[row v] a] rest IH]; intros st pre e post H Hr.
  - destruct pre; discriminate.
  - simpl in H. unfold flat_events in H. simpl in H. fold (flat_events) in H.
    destruct (fst (bar_rules pm st row v a)) as [e0|] eqn:E.
    + simpl in H. destruct pre as [|p pre''].
      * injection H as H _. subst e0. left. split; [reflexivity|].
        eapply atr_stop_needs_entry; eauto.
      * injection H as H0 H. subst p. right.
        destruct (IH _ _ _ _ H Hr) as [[-> [entry Hst]] | (pre' & en & -> & Hen)].
        -- exists [], e0. split; [reflexivity|].
           apply bar_rules_event in E. destruct E as (_ & _ & _ & _ & Hs).
           rewrite Hs in Hst. destruct (ev_kind e0); [reflexivity | discriminate].
        -- exists (e0 :: pre'), en. split; [reflexivity | exact Hen].
    + simpl in H. rewrite (bar_rules_silent _ _ _ _ _ E) in H.
      exact (IH _ _ _ _ H Hr).
Qed.

(** C4. The vwap_loss and long_wick rules emit an EXIT and leave the
    state Flat whatever the state was, so an EXIT can come with no ENTRY
    before it (as the first event of [exit_first_bars]); the atr_stop rule fires only
    in state Entered (as on [atr_stop_bars]), and in a detector's output the event just before an
    atr_stop EXIT is an ENTRY, hence an ENTRY with no EXIT in between. *)
Theorem C4_exits_and_position_state (bars : list Bar) (pm : option Q) :
  (forall st row v a,
     rule_matches break_premarket pm st row v a = false ->
     rule_matches vwap_reclaim pm st row v a = false ->
     rule_matches vwap_loss pm st row v a = true ->
     bar_rules pm st row v a = (Some (mkEvent (ts row) EXIT vwap_loss (Close row)), None)) /\
  (forall st row v a,
     rule_matches break_premarket pm st row v a = false ->
     rule_matches vwap_reclaim pm st row v a = false ->
     rule_matches vwap_loss pm st row v a = false ->
     rule_matches long_wick pm st row v a = true ->
     bar_rules pm st row v a = (Some (mkEvent (ts row) EXIT long_wick (Close row)), None)) /\
  five_min_signals exit_first_bars None = Ok [mkEvent 34500 EXIT vwap_loss 9] /\
  five_min_signals atr_stop_bars (Some 9)
  = Ok [mkEvent 34200 ENTRY break_premarket 10; mkEvent 34500 EXIT atr_stop 8] /\
  (forall st row v a e,
     fst (bar_rules pm st row v a) = Some e -> ev_reason e = atr_stop ->
     ev_kind e = EXIT /\ exists entry, st = Some entry) /\
  (forall evs, five_min_signals bars pm = Ok evs ->
     forall pre e post, evs = pre ++ e :: post -> ev_reason e = atr_stop ->
       ev_kind e = EXIT /\
       exists pre1 en pre2,
         pre = pre1 ++ en :: pre2 /\ ev_kind en = ENTRY /\
         Forall (fun x => ev_kind x <> EXIT) pre2).
Proof.
  split; [|split; [|split; [|split; [|split]]]].
  - intros st row v a H1 H2 H3. rewrite bar_rules_spec. unfold spec_bar_rules, rule_priority.
    cbn [find]. rewrite H1, H2, H3. reflexivity.
  - intros st row v a H1 H2 H3 H4. rewrite bar_rules_spec.
    unfold spec_bar_rules, rule_priority. cbn [find]. rewrite H1, H2, H3, H4. reflexivity.
  - vm_compute. reflexivity.
  - vm_compute. reflexivity.
  - intros st row v a e. apply atr_stop_needs_entry.
  - intros evs H pre e post Hsplit Hr.
    destruct (five_min_signals_cases bars pm) as [[_ H'] | [_ H']];
      rewrite H' in H; [|discriminate].
    injection H as <-. unfold pure_events in Hsplit.
    assert (Hk : ev_kind e = EXIT).
    { assert (Hin : In e (pre ++ e :: post)) by (apply in_elt).
      rewrite <- Hsplit in Hin. unfold flat_events in Hin. apply in_flat_map in Hin.
      destruct Hin as (o & Ho & Hin). destruct o as [e'|]; [|destruct Hin].
      destruct Hin as [-> | []].
      clear Hsplit. revert Ho. generalize (@None Q).
      induction (indicator_rows (sort_index bars)) as [|[[row v] a] rest IH];
        intros st Ho; [destruct Ho|].
      simpl in Ho. destruct Ho as [Ho | Ho]; [|eapply IH; eauto].
      apply bar_rules_event in Ho. destruct Ho as (_ & _ & Hk & _).
      rewrite Hk, Hr. reflexivity. }
    split; [exact Hk|].
    destruct (run_rules_atr_stop _ _ _ _ _ _ Hsplit Hr)
      as [[_ [entry Hst]] | (pre' & en & -> & Hen)]; [discriminate|].
    exists pre', en, []. split; [reflexivity|]. split; [exact Hen | constructor].
Qed.

(** ** Bars with no volume yet *)

Lemma cumsum_from_nth (l : list Q) : forall acc i c,
  nth_error (cumsum_from acc l) i = Some c -> c == acc + Qsum (firstn (S i) l).
Proof.
  induction l as [|x r IH]; intros acc i c H; [destruct i; discriminate|].
  destruct i as [|i]; simpl in H.
  - injection H as <-. simpl. lra.
  - apply IH in H. rewrite H. change (firstn (S (S i)) (x :: r)) with (x :: firstn (S i) r).
    simpl Qsum. lra.
Qed.

Lemma cumsum_nth (l : list Q) (i : nat) (c : Q) :
  nth_error (cumsum l) i = Some c -> c == Qsum (firstn (S i) l).
Proof.
  destruct l as [|x r]; [destruct i; discriminate|].
  destruct i as [|i]; simpl; intros H.
  - injection H as <-. lra.
  - apply cumsum_from_nth in H. rewrite H. destruct r; simpl; lra.
Qed.

Lemma Qsum_nonneg (l : list Q) : Forall (fun x => 0 <= x) l -> 0 <= Qsum l.
Proof.
  induction 1 as [|x r Hx _ IH]; simpl; lra.
Qed.

Lemma Qsum_firstn_mono (l : list Q) : Forall (fun x => 0 <= x) l ->
  forall j i, (j <= i)%nat -> Qsum (firstn j l) <= Qsum (firstn i l).
Proof.
  induction 1 as [|x r Hx Hr IH]; intros j i Hle.
  - rewrite !firstn_nil. lra.
  - destruct j as [|j].
    + simpl firstn at 1. simpl Qsum at 1. apply Qsum_nonneg.
      apply Forall_forall. intros y Hy. apply firstn_In in Hy.
      assert (HF : Forall (fun x => 0 <= x) (x :: r)) by (constructor; assumption).
      rewrite Forall_forall in HF. apply HF. exact Hy.
    + destruct i as [|i]; [lia|]. simpl. specialize (IH j i ltac:(lia)). lra.
Qed.

Lemma zip_with_nth {A B C : Type} (f : A -> B -> C) (l1 : list A) : forall (l2 : list B) i c,
  nth_error (zip_with f l1 l2) i = Some c ->
  exists a b, nth_error l1 i = Some a /\ nth_error l2 i = Some b /\ c = f a b.
Proof.
  induction l1 as [|x r IH]; intros [|y l2] i c H; simpl in H;
    try (destruct i; discriminate).
  destruct i as [|i]; simpl in H.
  - injection H as <-. exists x, y. auto.
  - apply IH in H. exact H.
Qed.

Lemma vwap_undefined_without_volume (bars : list Bar) (i : nat) :
  Forall (fun b => 0 <= Volume b) bars -> (i < length bars)%nat ->
  Qsum (map Volume (firstn (S i) bars)) == 0 ->
  nth_error (values (rolling_vwap bars)) i = Some None.
Proof.
  intros Hv Hi Hz. rewrite rolling_vwap_values.
  destruct (nth_error (ffill _) i) as [[w|]|] eqn:E; [exfalso | reflexivity | exfalso].
  - apply ffill_from_nth in E. destruct E as [E | (j & Hj & E)]; [discriminate|].
    apply zip_with_nth in E. destruct E as (p & d & _ & Hd & Hw).
    unfold replace0_nan in Hd. rewrite nth_error_map in Hd.
    destruct (nth_error (cumsum (map Volume bars)) j) as [c|] eqn:Ec; [|discriminate].
    simpl in Hd. injection Hd as <-.
    apply cumsum_nth in Ec.
    assert (Hnn : Forall (fun x => 0 <= x) (map Volume bars)).
    { apply Forall_map. exact Hv. }
    pose proof (Qsum_firstn_mono _ Hnn (S j) (S i) ltac:(lia)) as Hmono.
    pose proof (Qsum_nonneg (firstn (S j) (map Volume bars))) as Hge.
    rewrite <- firstn_map in Hz.
    assert (Hc0 : c == 0).
    { rewrite Ec. apply Qle_antisym; [lra|]. apply Hge.
      apply Forall_forall. intros y Hy. apply firstn_In in Hy.
      rewrite Forall_forall in Hnn. apply Hnn. exact Hy. }
    apply Qeq_bool_iff in Hc0. rewrite Hc0 in Hw. discriminate.
  - apply nth_error_None in E. unfold ffill in E.
    rewrite (ffill_from_length _ None) in E.
    fold (ffill (zip_with div_nan (cumsum (map (fun b => Close b * Volume b) bars))
                          (replace0_nan (cumsum (map Volume bars))))) in E.
    pose proof (vwap_values_length bars) as Hl. unfold ffill in Hl.
    rewrite ffill_from_length in Hl. lia.
Qed.

Lemma combine3_nth {A : Type} (l : list A) : forall (vs al : list fnum) x v a,
  In (x, v, a) (combine (combine l vs) al) ->
  exists j, nth_error l j = Some x /\ nth_error vs j = Some v.
Proof.
  induction l as [|y r IH]; intros [|v0 vs] [|a0 al] x v a H; simpl in H; try contradiction.
  destruct H as [H | H].
  - injection H as -> -> ->. exists 0%nat. auto.
  - destruct (IH vs al x v a H) as (j & H1 & H2). exists (S j). auto.
Qed.

Lemma run_rules_origin (pm : option Q) (inputs : list (Bar * fnum * fnum)) :
  forall st e, In e (flat_events (run_rules pm inputs st)) ->
  exists row v a st', In (row, v, a) inputs /\ fst (bar_rules pm st' row v a) = Some e.
Proof.
  induction inputs as [|[[row v] a] rest IH]; intros st e H; [destruct H|].
  unfold flat_events in H. simpl in H. apply in_app_or in H. destruct H as [H | H].
  - destruct (fst (bar_rules pm st row v a)) as [e0|] eqn:E; [|destruct H].
    destruct H as [<- | []]. exists row, v, a, st. split; [left; reflexivity | exact E].
  - destruct (IH _ _ H) as (row' & v' & a' & st' & Hin & He).
    exists row', v', a', st'. split; [right; exact Hin | exact He].
Qed.

Lemma bar_rules_without_vwap (pm : option Q) (st : PositionState) (row : Bar) (a : fnum) :
  bar_rules pm st row None a
  = if rule_matches break_premarket pm st row None a
    then (Some (mkEvent (ts row) ENTRY break_premarket (Close row)), Some (Close row))
    else if rule_matches long_wick pm st row None a
    then (Some (mkEvent (ts row) EXIT long_wick (Close row)), None)
    else if rule_matches atr_stop pm st row None a
    then (Some (mkEvent (ts row) EXIT atr_stop (Close row)), None)
    else (None, st).
Proof.
  rewrite bar_rules_spec. unfold spec_bar_rules, rule_priority. cbn [find].
  change (rule_matches vwap_reclaim pm st row None a) with false.
  change (rule_matches vwap_loss pm st row None a) with false.
  destruct (rule_matches break_premarket pm st row None a); [reflexivity|].
  destruct (rule_matches long_wick pm st row None a); [reflexivity|].
  destruct (rule_matches atr_stop pm st row None a); reflexivity.
Qed.

(** C10. On bars with non-negative volumes, at a bar up to which the
    cumulative volume is zero the VWAP is undefined, the detector's output has
    neither a vwap_reclaim nor a vwap_loss event for that bar, and the bar is
    decided by break_premarket, then long_wick, then atr_stop alone. *)
Theorem C10_no_vwap_event_without_volume (bars : list Bar) (pm : option Q)
    (evs : list Event) (i : nat) (b : Bar) :
  Forall (fun b => 0 <= Volume b) bars ->
  five_min_signals bars pm = Ok evs ->
  nth_error (sort_index bars) i = Some b ->
  Qsum (map Volume (firstn (S i) (sort_index bars))) == 0 ->
  nth_error (values (rolling_vwap (sort_index bars))) i = Some None /\
  (forall e, In e evs -> ev_ts e = ts b ->
     ev_reason e <> vwap_reclaim /\ ev_reason e <> vwap_loss) /\
  (forall st a,
     bar_rules pm st b None a
     = if rule_matches break_premarket pm st b None a
       then (Some (mkEvent (ts b) ENTRY break_premarket (Close b)), Some (Close b))
       else if rule_matches long_wick pm st b None a
       then (Some (mkEvent (ts b) EXIT long_wick (Close b)), None)
       else if rule_matches atr_stop pm st b None a
       then (Some (mkEvent (ts b) EXIT atr_stop (Close b)), None)
       else (None, st)).
Proof.
  intros Hv H Hb Hz.
  assert (Hv' : Forall (fun b => 0 <= Volume b) (sort_index bars)).
  { eapply Permutation_Forall; [symmetry; apply sort_index_perm | exact Hv]. }
  assert (Hi : (i < length (sort_index bars))%nat).
  { apply nth_error_Some. rewrite Hb. discriminate. }
  pose proof (vwap_undefined_without_volume _ i Hv' Hi Hz) as Hnone.
  split; [exact Hnone|]. split; [|intros; apply bar_rules_without_vwap].
  intros e Hin Hts.
  destruct (five_min_signals_cases bars pm) as [[Hnd H'] | [_ H']];
    rewrite H' in H; [|discriminate].
  injection H as <-. unfold pure_events in Hin.
  apply run_rules_origin in Hin. destruct Hin as (row & v & a & st' & Hrow & He).
  unfold indicator_rows in Hrow. apply combine3_nth in Hrow.
  destruct Hrow as (j & Hj & Hvj).
  assert (Hji : j = i).
  { apply sort_index_NoDup in Hnd. rewrite NoDup_nth_error in Hnd. apply Hnd.
    - rewrite length_map. apply nth_error_Some. rewrite Hj. discriminate.
    - rewrite !nth_error_map, Hj, Hb. simpl. f_equal.
      apply bar_rules_event in He. destruct He as (He & _). congruence. }
  subst j. rewrite Hnone in Hvj. injection Hvj as <-.
  apply bar_rules_event in He. destruct He as (_ & _ & _ & Hm & _).
  split; intros Hr; rewrite Hr in Hm; simpl in Hm; discriminate.
Qed.

Lemma C10_witness :
  nth_error (values (rolling_vwap (sort_index atr_stop_bars))) 0 = Some None /\
  forall e,
    In e [mkEvent 34200 ENTRY break_premarket 10; mkEvent 34500 EXIT atr_stop 8] ->
    ev_ts e = 34200%Z -> ev_reason e <> vwap_reclaim /\ ev_reason e <> vwap_loss.
Proof.
  assert (Hv : Forall (fun b => 0 <= Volume b) atr_stop_bars).
  { repeat constructor; simpl; unfold Qle; simpl; lia. }
  destruct (C10_no_vwap_event_without_volume atr_stop_bars (Some 9)
              [mkEvent 34200 ENTRY break_premarket 10; mkEvent 34500 EXIT atr_stop 8]
              0 (mkBar 34200 10 10 10 10 0) Hv) as (H1 & H2 & _).
  - vm_compute. reflexivity.
  - vm_compute. reflexivity.
  - vm_compute. reflexivity.
  - split; [exact H1 | exact H2].
Defined.

(** ** Ranking of gap candidates *)

Lemma insert_desc_perm (c : GapCandidate) (l : list GapCandidate) :
  Permutation (insert_desc c l) (c :: l).
Proof.
  induction l as [|x r IH]; simpl; [reflexivity|].
  destruct (Qle_bool (gap_pct x) (gap_pct c)); [reflexivity|].
  rewrite IH. apply perm_swap.
Qed.

Lemma sorted_desc_perm (l : list GapCandidate) : Permutation (sorted_desc l) l.
Proof.
  induction l as [|c r IH]; simpl; [reflexivity|].
  rewrite insert_desc_perm. apply perm_skip. exact IH.
Qed.

Lemma insert_desc_split (c : GapCandidate) (l : list GapCandidate) :
  desc_sorted l ->
  exists A B,
    l = A ++ B /\ insert_desc c l = A ++ c :: B /\
    Forall (fun x => gap_pct c < gap_pct x) A /\
    Forall (fun x => gap_pct x <= gap_pct c) B.
Proof.
  induction 1 as [|x r Hs IH Hall]; simpl.
  - exists [], []. repeat split; constructor.
  - destruct (Qle_bool (gap_pct x) (gap_pct c)) eqn:E.
    + apply Qle_bool_iff in E. exists [], (x :: r). repeat split; [constructor|].
      constructor; [exact E|]. eapply Forall_impl; [|exact Hall].
      simpl. intros y Hy. lra.
    + destruct IH as (A & B & -> & Hins & HA & HB).
      exists (x :: A), B. rewrite Hins. repeat split; [|exact HB].
      constructor; [|exact HA].
      apply Qnot_le_lt. intros Hle. apply Qle_bool_iff in Hle. congruence.
Qed.

Lemma insert_desc_sorted (c : GapCandidate) (l : list GapCandidate) :
  desc_sorted l -> desc_sorted (insert_desc c l).
Proof.
  induction 1 as [|x r Hs IH Hall]; simpl.
  - constructor; constructor.
  - destruct (Qle_bool (gap_pct x) (gap_pct c)) eqn:E.
    + apply Qle_bool_iff in E. constructor; [constructor; assumption|].
      constructor; [exact E|]. eapply Forall_impl; [|exact Hall]. simpl. intros; lra.
    + constructor; [exact IH|].
      eapply Permutation_Forall; [symmetry; apply insert_desc_perm|].
      constructor; [|exact Hall].
      assert (~ gap_pct x <= gap_pct c).
      { intros Hle. apply Qle_bool_iff in Hle. congruence. }
      lra.
Qed.

Lemma sorted_desc_sorted (l : list GapCandidate) : desc_sorted (sorted_desc l).
Proof.
  induction l as [|c r IH]; simpl; [constructor|]. apply insert_desc_sorted. exact IH.
Qed.

Lemma count_gt_perm (c : GapCandidate) (l l' : list GapCandidate) :
  Permutation l l' -> count_gt c l = count_gt c l'.
Proof.
  intros H. unfold count_gt. apply Permutation_length.
  induction H; simpl.
  - reflexivity.
  - destruct (Qltb (gap_pct c) (gap_pct x)); [apply perm_skip|]; assumption.
  - destruct (Qltb (gap_pct c) (gap_pct x)), (Qltb (gap_pct c) (gap_pct y));
      try reflexivity. apply perm_swap.
  - etransitivity; eassumption.
Qed.

Lemma count_gt_app (c : GapCandidate) (l l' : list GapCandidate) :
  count_gt c (l ++ l') = (count_gt c l + count_gt c l')%nat.
Proof. unfold count_gt. rewrite filter_app, length_app. reflexivity. Qed.

Lemma count_gt_all (c : GapCandidate) (l : list GapCandidate) :
  Forall (fun x => gap_pct c < gap_pct x) l -> count_gt c l = length l.
Proof.
  unfold count_gt. induction 1 as [|x r Hx _ IH]; simpl; [reflexivity|].
  rewrite (proj2 (Qltb_lt _ _) Hx). simpl. f_equal. exact IH.
Qed.

Lemma count_gt_none (c : GapCandidate) (l : list GapCandidate) :
  Forall (fun x => gap_pct x <= gap_pct c) l -> count_gt c l = 0%nat.
Proof.
  unfold count_gt. induction 1 as [|x r Hx _ IH]; simpl; [reflexivity|].
  destruct (Qltb (gap_pct c) (gap_pct x)) eqn:E; [|exact IH].
  apply Qltb_lt in E. lra.
Qed.

(** Where the first occurrence of [c] lands in the sorted list. *)
Lemma sorted_desc_position (c : GapCandidate) (l1 : list GapCandidate) :
  forall l2, ~ In c l1 ->
  exists A B,
    sorted_desc (l1 ++ c :: l2) = A ++ c :: B /\ ~ In c A /\
    length A = (count_ge c l1 + count_gt c l2)%nat.
Proof.
  induction l1 as [|a l1 IH]; intros l2 Hnin.
  - simpl app. simpl sorted_desc.
    destruct (insert_desc_split c (sorted_desc l2) (sorted_desc_sorted l2))
      as (A & B & Hl & Hins & HA & HB).
    exists A, B. split; [exact Hins|]. split.
    + intros Hin. rewrite Forall_forall in HA. specialize (HA c Hin). lra.
    + unfold count_ge. simpl.
      rewrite <- (count_gt_perm c _ _ (sorted_desc_perm l2)), Hl, count_gt_app.
      rewrite (count_gt_all c A HA), (count_gt_none c B HB). lia.
  - assert (Hac : a <> c) by (intros ->; apply Hnin; left; reflexivity).
    assert (Hnin' : ~ In c l1) by (intros H; apply Hnin; right; exact H).
    destruct (IH l2 Hnin') as (A & B & Hsort & HcA & Hlen).
    simpl app. simpl sorted_desc. rewrite Hsort.
    destruct (insert_desc_split a (A ++ c :: B)) as (A2 & B2 & Hl & Hins & HA2 & HB2).
    { rewrite <- Hsort. apply sorted_desc_sorted. }
    rewrite Hins. unfold count_ge in *. simpl filter.
    apply app_eq_app in Hl. destruct Hl as (m & [[HA HB] | [HA HB]]).
    + (* the new candidate lands before [c] *)
      assert (Hge : Qle_bool (gap_pct c) (gap_pct a) = true).
      { apply Qle_bool_iff. rewrite Forall_forall in HB2.
        apply HB2. rewrite HB. apply in_elt. }
      rewrite Hge. exists (A2 ++ a :: m), B. subst A B2. split.
      * rewrite <- app_assoc. reflexivity.
      * split.
        -- intros Hin. apply in_app_or in Hin.
           destruct Hin as [Hin | [Hin | Hin]]; [| contradiction |];
             apply HcA; apply in_or_app; auto.
        -- rewrite !length_app in *. simpl length. lia.
    + destruct m as [|c' m].
      * (* the new candidate lands right before [c] *)
        simpl in HB. rewrite app_nil_r in HA. subst A2 B2.
        assert (Hge : Qle_bool (gap_pct c) (gap_pct a) = true).
        { apply Qle_bool_iff. inversion HB2; assumption. }
        rewrite Hge. exists (A ++ [a]), B. split; [rewrite <- app_assoc; reflexivity|].
        split.
        -- intros Hin. apply in_app_or in Hin. destruct Hin as [Hin | [Hin | []]]; auto.
        -- rewrite !length_app in *. simpl length. lia.
      * (* the new candidate lands after [c] *)
        injection HB as <- HB. subst A2 B.
        assert (Hlt : Qle_bool (gap_pct c) (gap_pct a) = false).
        { destruct (Qle_bool (gap_pct c) (gap_pct a)) eqn:E; [|reflexivity].
          apply Qle_bool_iff in E. rewrite Forall_forall in HA2.
          specialize (HA2 c (in_elt c A m)). lra. }
        rewrite Hlt. exists A, (m ++ a :: B2). split.
        -- rewrite <- app_assoc. reflexivity.
        -- split; [exact HcA | exact Hlen].
Qed.

Lemma in_split_first (c : GapCandidate) (l : list GapCandidate) :
  In c l -> exists l1 l2, l = l1 ++ c :: l2 /\ ~ In c l1.
Proof.
  induction l as [|x r IH]; intros H; [destruct H|].
  destruct (GapCandidate_eq_dec x c) as [-> | Hne].
  - exists [], r. split; [reflexivity | intros []].
  - destruct H as [H | H]; [contradiction|].
    destruct (IH H) as (l1 & l2 & -> & Hnin).
    exists (x :: l1), l2. split; [reflexivity|].
    intros [Hx | Hx]; [contradiction | exact (Hnin Hx)].
Qed.

Lemma ahead_of_split (c : GapCandidate) (l1 l2 : list GapCandidate) :
  ~ In c l1 -> ahead_of c (l1 ++ c :: l2) = (count_ge c l1 + count_gt c l2)%nat.
Proof.
  induction l1 as [|x r IH]; intros Hnin; simpl.
  - destruct (GapCandidate_eq_dec c c); [reflexivity | contradiction].
  - destruct (GapCandidate_eq_dec x c) as [-> | Hne].
    + exfalso. apply Hnin. left. reflexivity.
    + rewrite IH by (intros H; apply Hnin; right; exact H).
      unfold count_ge. simpl. destruct (Qle_bool (gap_pct c) (gap_pct x)); simpl; lia.
Qed.

Lemma filter_above_threshold (thr : Q) (c : GapCandidate) (l : list GapCandidate) :
  thr <= gap_pct c ->
  count_ge c (filter (fun r => Qle_bool thr (gap_pct r)) l) = count_ge c l /\
  count_gt c (filter (fun r => Qle_bool thr (gap_pct r)) l) = count_gt c l.
Proof.
  intros Hthr. unfold count_ge, count_gt. induction l as [|x r [IH1 IH2]]; simpl; [auto|].
  destruct (Qle_bool thr (gap_pct x)) eqn:E; simpl.
  - destruct (Qle_bool (gap_pct c) (gap_pct x)), (Qltb (gap_pct c) (gap_pct x));
      simpl; split; congruence.
  - assert (Hx : ~ thr <= gap_pct x).
    { intros Hle. apply Qle_bool_iff in Hle. congruence. }
    destruct (Qle_bool (gap_pct c) (gap_pct x)) eqn:E1.
    { apply Qle_bool_iff in E1. lra. }
    destruct (Qltb (gap_pct c) (gap_pct x)) eqn:E2.
    { apply Qltb_lt in E2. lra. }
    auto.
Qed.

Lemma firstn_first_occurrence (c : GapCandidate) (A B : list GapCandidate) (n : nat) :
  ~ In c A -> (In c (firstn n (A ++ c :: B)) <-> (length A < n)%nat).
Proof.
  intros Hnin. split.
  - intros Hin. destruct (Nat.lt_ge_cases (length A) n) as [Hlt | Hge]; [exact Hlt|].
    exfalso. apply Hnin. rewrite firstn_app in Hin.
    replace (n - length A)%nat with 0%nat in Hin by lia.
    simpl in Hin. rewrite app_nil_r in Hin. eapply firstn_In. exact Hin.
  - intros Hlt. rewrite firstn_app. apply in_or_app. right.
    destruct (n - length A)%nat as [|k] eqn:E; [lia|]. left. reflexivity.
Qed.

Lemma slice_to_nonneg {A : Type} (n : Z) (l : list A) :
  (0 <= n)%Z -> slice_to n l = firstn (Z.to_nat n) l.
Proof.
  intros H. unfold slice_to. destruct (Z.leb_spec 0 n); [reflexivity | lia].
Qed.

(** A candidate is kept exactly when it reaches the threshold and fewer than
    [top_n] candidates are ranked ahead of it. *)
Lemma select_top_iff (thr : Q) (n : Z) (results : list GapCandidate) (c : GapCandidate) :
  (0 <= n)%Z ->
  (In c (select_top thr n results) <->
   In c results /\ thr <= gap_pct c /\ (Z.of_nat (ahead_of c results) < n)%Z).
Proof.
  intros Hn. unfold select_top. rewrite slice_to_nonneg by exact Hn.
  set (keep := fun r : GapCandidate => Qle_bool thr (gap_pct r)).
  assert (Hmem : In c (sorted_desc (filter keep results)) <-> In c results /\ thr <= gap_pct c).
  { split.
    - intros H. apply (Permutation_in _ (sorted_desc_perm _)) in H.
      apply filter_In in H. unfold keep in H. rewrite Qle_bool_iff in H. exact H.
    - intros [H1 H2]. apply (Permutation_in _ (Permutation_sym (sorted_desc_perm _))).
      apply filter_In. unfold keep. rewrite Qle_bool_iff. auto. }
  assert (Hpos : In c results -> thr <= gap_pct c ->
                 (In c (firstn (Z.to_nat n) (sorted_desc (filter keep results)))
                  <-> (ahead_of c results < Z.to_nat n)%nat)).
  { intros Hin Hthr. destruct (in_split_first c results Hin) as (l1 & l2 & -> & Hnin).
    rewrite filter_app. simpl filter.
    assert (Hk : keep c = true) by (unfold keep; apply Qle_bool_iff; exact Hthr).
    rewrite Hk.
    destruct (sorted_desc_position c (filter keep l1) (filter keep l2))
      as (A & B & -> & HcA & Hlen).
    { intros H. apply filter_In in H. tauto. }
    rewrite (firstn_first_occurrence c A B _ HcA), Hlen. unfold keep.
    destruct (filter_above_threshold thr c l1 Hthr) as [-> _].
    destruct (filter_above_threshold thr c l2 Hthr) as [_ ->].
    rewrite ahead_of_split by exact Hnin. reflexivity. }
  split.
  - intros H. assert (H' : In c (sorted_desc (filter keep results))).
    { eapply firstn_In. exact H. }
    apply Hmem in H'. destruct H' as [H1 H2]. split; [exact H1|]. split; [exact H2|].
    apply (Hpos H1 H2) in H. lia.
  - intros (H1 & H2 & H3). apply (Hpos H1 H2). lia.
Qed.

(** ** Gap of one ticker *)

Lemma find_date_first (d : Z) (before : list DailyRow) : forall (o : DailyRow) after k,
  Forall (fun r => date_of (d_ts r) <> d) before -> date_of (d_ts o) = d ->
  find_date d (before ++ o :: after) k = Some (k + length before)%nat.
Proof.
  induction before as [|r rest IH]; intros o after k Hb Ho; simpl.
  - rewrite (proj2 (Z.eqb_eq _ _) Ho). f_equal. lia.
  - inversion Hb as [|? ? Hr Hrest]; subst.
    destruct (Z.eqb_spec (date_of (d_ts r)) (date_of (d_ts o))); [contradiction|].
    rewrite IH by auto. f_equal. lia.
Qed.

Lemma gap_of_nonzero (t : string) (p o : Q) :
  ~ p == 0 -> gap_of t p o = Ok [gap_candidate t p o].
Proof.
  intros Hp. unfold gap_of, py_div.
  destruct (Qeq_bool p 0) eqn:E; [apply Qeq_bool_iff in E; contradiction|].
  reflexivity.
Qed.

Lemma gap_body_target (src : BarSource) (t : string) (frame : DailyFrame) (d : Z)
    (before after : list DailyRow) (p o : DailyRow) :
  daily_history src t = Ok frame -> has_open frame = true -> has_close frame = true ->
  d_rows frame = before ++ p :: o :: after ->
  date_of (d_ts o) = d -> Forall (fun r => date_of (d_ts r) <> d) (before ++ [p]) ->
  ~ d_close p == 0 ->
  gap_body src (Some d) t = Ok [gap_candidate t (d_close p) (d_open o)].
Proof.
  intros Hd Ho Hc Hrows Hdate Hbefore Hp. unfold gap_body. rewrite Hd. cbn [bind].
  rewrite Ho, Hc, Hrows. clear Hrows. cbn [negb orb].
  destruct (before ++ p :: o :: after) as [|x r] eqn:E; [destruct before; discriminate|].
  rewrite <- E. clear E x r.
  replace (before ++ p :: o :: after) with ((before ++ [p]) ++ o :: after)
    by (rewrite <- app_assoc; reflexivity).
  rewrite (find_date_first d (before ++ [p]) o after 0) by assumption.
  rewrite length_app. simpl length. replace (0 + (length before + 1))%nat
    with (S (length before)) by lia.
  unfold iloc.
  rewrite <- app_assoc. simpl app.
  rewrite (nth_error_app2 before _ (n := length before)) by lia.
  rewrite (nth_error_app2 before _ (n := S (length before))) by lia.
  rewrite Nat.sub_diag.
  replace (S (length before) - length before)%nat with 1%nat by lia.
  cbn [nth_error bind]. apply gap_of_nonzero. exact Hp.
Qed.

Lemma gap_body_latest (src : BarSource) (t : string) (frame : DailyFrame)
    (before : list DailyRow) (p o : DailyRow) :
  daily_history src t = Ok frame -> has_open frame = true -> has_close frame = true ->
  d_rows frame = before ++ [p; o] -> ~ d_close p == 0 ->
  gap_body src None t = Ok [gap_candidate t (d_close p) (d_open o)].
Proof.
  intros Hd Ho Hc Hrows Hp. unfold gap_body. rewrite Hd. cbn [bind].
  rewrite Ho, Hc, Hrows. clear Hrows. cbn [negb orb].
  destruct (before ++ [p; o]) as [|x r] eqn:E; [destruct before; discriminate|].
  rewrite <- E. clear E x r.
  rewrite length_app. simpl length.
  destruct (Nat.ltb_spec (length before + 2) 2); [lia|].
  unfold iloc.
  replace (length before + 2 - 2)%nat with (length before) by lia.
  replace (length before + 2 - 1)%nat with (S (length before)) by lia.
  rewrite (nth_error_app2 before _ (n := length before)) by lia.
  rewrite (nth_error_app2 before _ (n := S (length before))) by lia.
  rewrite Nat.sub_diag.
  replace (S (length before) - length before)%nat with 1%nat by lia.
  cbn [nth_error bind]. apply gap_of_nonzero. exact Hp.
Qed.

Lemma gap_results_In (src : BarSource) (target_date : option Z) (tks : list string)
    (c : GapCandidate) :
  In c (gap_results src target_date tks) <->
  exists t l, In t tks /\ gap_body src target_date t = Ok l /\ In c l.
Proof.
  induction tks as [|t rest IH]; simpl.
  - split; [intros [] | intros (t & l & [] & _)].
  - rewrite in_app_iff, IH. split.
    + intros [H | (t' & l & Ht & Hb & Hc)].
      * destruct (gap_body src target_date t) as [l|e] eqn:E; [|destruct H].
        exists t, l. auto.
      * exists t', l. auto.
    + intros (t' & l & [<- | Ht] & Hb & Hc).
      * left. rewrite Hb. exact Hc.
      * right. exists t', l. auto.
Qed.

(** C8. A ticker with a daily bar on the target date and a bar before
    it gets the candidate with gap_pct = (open - prev_close) / prev_close * 100
    (10 for a previous close of 100 and an open of 110); the candidates
    replayed are those of the ranking that reach the threshold and have fewer
    than [top_n] candidates ranked ahead of them by gap descending. *)
Theorem C8_gap_pct_threshold_top_n (cfg : Config) (src : BarSource)
    (target_date : option Z) (speed : Q) :
  (0 <= top_n_gappers cfg)%Z ->
  (forall t frame before p o after d,
     target_date = Some d -> In t (tickers cfg) ->
     daily_history src t = Ok frame -> has_open frame = true -> has_close frame = true ->
     d_rows frame = before ++ p :: o :: after ->
     date_of (d_ts o) = d -> Forall (fun r => date_of (d_ts r) <> d) (before ++ [p]) ->
     ~ d_close p == 0 ->
     gap_body src target_date t = Ok [gap_candidate t (d_close p) (d_open o)] /\
     In (gap_candidate t (d_close p) (d_open o))
        (gap_results src target_date (tickers cfg))) /\
  (forall t frame before p o,
     target_date = None -> In t (tickers cfg) ->
     daily_history src t = Ok frame -> has_open frame = true -> has_close frame = true ->
     d_rows frame = before ++ [p; o] -> ~ d_close p == 0 ->
     gap_body src target_date t = Ok [gap_candidate t (d_close p) (d_open o)] /\
     In (gap_candidate t (d_close p) (d_open o))
        (gap_results src target_date (tickers cfg))) /\
  (forall t, gap_pct (gap_candidate t 100 110) == 10) /\
  (forall c,
     In c (select_top (gap_threshold_percent cfg) (top_n_gappers cfg)
             (gap_results src target_date (tickers cfg))) <->
     In c (gap_results src target_date (tickers cfg)) /\
     gap_threshold_percent cfg <= gap_pct c /\
     (Z.of_nat (ahead_of c (gap_results src target_date (tickers cfg)))
      < top_n_gappers cfg)%Z) /\
  run_replay_for_date cfg src target_date speed
  = match select_top (gap_threshold_percent cfg) (top_n_gappers cfg)
            (gap_results src target_date (tickers cfg)) with
    | [] => mkRun [] None
    | c :: rest => replay_loop src target_date (c :: rest) []
    end.
Proof.
  intros Hn. split; [|split; [|split; [|split]]].
  - intros t frame before p o after d -> Ht Hd Ho Hc Hrows Hdate Hb Hp.
    assert (H : gap_body src (Some d) t = Ok [gap_candidate t (d_close p) (d_open o)]).
    { eapply gap_body_target; eauto. }
    split; [exact H|]. apply gap_results_In. exists t, [gap_candidate t (d_close p) (d_open o)].
    split; [exact Ht|]. split; [exact H | left; reflexivity].
  - intros t frame before p o -> Ht Hd Ho Hc Hrows Hp.
    assert (H : gap_body src None t = Ok [gap_candidate t (d_close p) (d_open o)]).
    { eapply gap_body_latest; eauto. }
    split; [exact H|]. apply gap_results_In. exists t, [gap_candidate t (d_close p) (d_open o)].
    split; [exact Ht|]. split; [exact H | left; reflexivity].
  - intros t. vm_compute. reflexivity.
  - intros c. apply select_top_iff. exact Hn.
  - unfold run_replay_for_date.
    destruct (select_top _ _ _); reflexivity.
Qed.

Lemma C8_witness :
  (0 <= top_n_gappers sample_config)%Z /\
  In (gap_candidate "BBB" 50 60)
     (select_top (gap_threshold_percent sample_config) (top_n_gappers sample_config)
        (gap_results daily_only_source (Some 1%Z) (tickers sample_config))).
Proof.
  assert (Hn : (0 <= top_n_gappers sample_config)%Z) by (simpl; lia).
  split; [exact Hn|].
  destruct (C8_gap_pct_threshold_top_n sample_config daily_only_source (Some 1%Z) 1 Hn)
    as (_ & _ & _ & H & _).
  apply H. split; [|split].
  - vm_compute. right. left. reflexivity.
  - vm_compute. discriminate.
  - vm_compute. reflexivity.
Defined.

(** ** One failing ticker *)

Lemma gap_results_skips_raise (src : BarSource) (target_date : option Z)
    (before after : list string) (t : string) (e : exn) :
  gap_body src target_date t = Raise e ->
  gap_results src target_date (before ++ t :: after)
  = gap_results src target_date before ++ gap_results src target_date after.
Proof.
  intros H. induction before as [|x r IH]; simpl.
  - rewrite H. reflexivity.
  - rewrite IH, app_assoc. reflexivity.
Qed.

Lemma replay_loop_stops (src : BarSource) (target_date : option Z) (c : GapCandidate)
    (rest : list GapCandidate) (written : list (string * Event)) (e : exn) :
  replay_ticker src target_date c = Raise e ->
  replay_loop src target_date (c :: rest) written = mkRun written (Some e).
Proof. intros H. simpl. rewrite H. reflexivity. Qed.

(** C2. In the ranking phase a ticker whose fetch or gap computation
    raises is skipped and the others keep their candidates.  In the replay
    phase nothing catches: when the intraday fetch of the first-ranked ticker
    BBB raises, or its bars make the detector raise, the run ends with that
    exception and AAA, which on its own yields an event, is never replayed. *)
Theorem C2_replay_phase_aborts_on_exception :
  (forall src target_date before after t e,
     gap_body src target_date t = Raise e ->
     gap_results src target_date (before ++ t :: after)
     = gap_results src target_date before ++ gap_results src target_date after) /\
  run_replay_for_date (default_config ["AAA"; "BBB"]%string) fetch_fails_source (Some 1%Z) 1
  = mkRun [] (Some FetchError) /\
  run_replay_for_date (default_config ["AAA"; "BBB"]%string) duplicate_bars_source (Some 1%Z) 1
  = mkRun [] (Some TypeError) /\
  run_replay_for_date (default_config ["AAA"]%string) fetch_fails_source (Some 1%Z) 1
  = mkRun [("AAA"%string, mkEvent 120900 EXIT vwap_loss 9)] None.
Proof.
  split; [|split; [|split]].
  - intros. eapply gap_results_skips_raise; eauto.
  - vm_compute. reflexivity.
  - vm_compute. reflexivity.
  - vm_compute. reflexivity.
Qed.

(** * Further properties of the indicator step *)

Lemma zip_with_nth_some {A B C : Type} (f : A -> B -> C) (l1 : list A) :
  forall (l2 : list B) i a b,
    nth_error l1 i = Some a -> nth_error l2 i = Some b ->
    nth_error (zip_with f l1 l2) i = Some (f a b).
Proof.
  induction l1 as [|x r IH]; intros [|y l2] [|i] a b H1 H2; simpl in *; try discriminate.
  - congruence.
  - apply IH; assumption.
Qed.

Lemma nth_error_defined {A : Type} (l : list A) (i : nat) :
  (i < length l)%nat -> exists x, nth_error l i = Some x.
Proof.
  intros H. destruct (nth_error l i) as [x|] eqn:E; [eauto|].
  apply nth_error_None in E. lia.
Qed.

Lemma ffill_from_keeps (l : list fnum) : forall last i x,
  nth_error l i = Some (Some x) -> nth_error (ffill_from last l) i = Some (Some x).
Proof.
  induction l as [|y r IH]; intros last [|i] x H; simpl in *; try discriminate.
  - injection H as ->. reflexivity.
  - apply IH. exact H.
Qed.

Lemma ffill_from_carries (l : list fnum) : forall last i,
  nth_error l (S i) = Some None ->
  nth_error (ffill_from last l) (S i) = nth_error (ffill_from last l) i.
Proof.
  induction l as [|y r IH]; intros last i H; [discriminate|].
  destruct i as [|i].
  - destruct r as [|z r']; [discriminate|]. simpl in H. injection H as ->. reflexivity.
  - simpl. apply (IH _ i). exact H.
Qed.

Lemma raw_vwap_at (bars : list Bar) (i : nat) :
  (i < length bars)%nat ->
  exists p c,
    p == cum_value bars i /\ c == cum_volume bars i /\
    nth_error (zip_with div_nan (cumsum (map (fun b => Close b * Volume b) bars))
                 (replace0_nan (cumsum (map Volume bars)))) i
    = Some (if Qeq_bool c 0 then None else Some (p / c)).
Proof.
  intros Hi.
  destruct (nth_error_defined (cumsum (map (fun b => Close b * Volume b) bars)) i)
    as [p Hp]; [rewrite cumsum_length, length_map; exact Hi|].
  destruct (nth_error_defined (cumsum (map Volume bars)) i)
    as [c Hc]; [rewrite cumsum_length, length_map; exact Hi|].
  exists p, c. split; [|split].
  - unfold cum_value. rewrite <- firstn_map. apply cumsum_nth. exact Hp.
  - unfold cum_volume. rewrite <- firstn_map. apply cumsum_nth. exact Hc.
  - rewrite (zip_with_nth_some div_nan _ _ i p (if Qeq_bool c 0 then None else Some c)).
    + destruct (Qeq_bool c 0); reflexivity.
    + exact Hp.
    + unfold replace0_nan. rewrite nth_error_map, Hc. reflexivity.
Qed.

(** X1. Where the cumulative volume through bar [i] is not zero, the
    VWAP at [i] is the cumulative close x volume divided by the cumulative
    volume, whatever the sign of the volumes. *)
Theorem X1_vwap_is_value_over_volume (bars : list Bar) (i : nat) :
  (i < length bars)%nat -> ~ cum_volume bars i == 0 ->
  exists w,
    nth_error (values (rolling_vwap bars)) i = Some (Some w) /\
    w == cum_value bars i / cum_volume bars i.
Proof.
  intros Hi Hnz. destruct (raw_vwap_at bars i Hi) as (p & c & Hp & Hc & Hraw).
  destruct (Qeq_bool c 0) eqn:E.
  { apply Qeq_bool_iff in E. rewrite Hc in E. contradiction. }
  exists (p / c). split.
  - rewrite rolling_vwap_values. unfold ffill. apply ffill_from_keeps. exact Hraw.
  - rewrite Hp, Hc. reflexivity.
Qed.

Lemma X1_witness :
  exists w,
    nth_error (values (rolling_vwap sample_bars)) 2 = Some (Some w) /\
    w == cum_value sample_bars 2 / cum_volume sample_bars 2.
Proof.
  apply (X1_vwap_is_value_over_volume sample_bars 2).
  - simpl. lia.
  - vm_compute. discriminate.
Defined.

(** X2. Where the cumulative volume through a bar is zero the VWAP is
    carried over from the bar before (and is undefined on the first bar);
    hence a VWAP that is defined at one bar is defined at every later bar. *)
Theorem X2_vwap_carried_forward (bars : list Bar) :
  (forall i, (S i < length bars)%nat -> cum_volume bars (S i) == 0 ->
     nth_error (values (rolling_vwap bars)) (S i)
     = nth_error (values (rolling_vwap bars)) i) /\
  ((0 < length bars)%nat -> cum_volume bars 0 == 0 ->
     nth_error (values (rolling_vwap bars)) 0 = Some None) /\
  (forall i j w, (i <= j < length bars)%nat ->
     nth_error (values (rolling_vwap bars)) i = Some (Some w) ->
     exists w', nth_error (values (rolling_vwap bars)) j = Some (Some w')).
Proof.
  assert (Hstep : forall i, (S i < length bars)%nat -> cum_volume bars (S i) == 0 ->
     nth_error (values (rolling_vwap bars)) (S i)
     = nth_error (values (rolling_vwap bars)) i).
  { intros i Hi Hz. rewrite rolling_vwap_values. unfold ffill.
    apply ffill_from_carries.
    destruct (raw_vwap_at bars (S i) Hi) as (p & c & _ & Hc & ->).
    rewrite <- Hc in Hz. apply Qeq_bool_iff in Hz. rewrite Hz. reflexivity. }
  split; [exact Hstep|]. split.
  - intros Hi Hz. rewrite rolling_vwap_values.
    destruct (raw_vwap_at bars 0 Hi) as (p & c & _ & Hc & Hraw).
    rewrite <- Hc in Hz. apply Qeq_bool_iff in Hz. rewrite Hz in Hraw.
    destruct (zip_with div_nan _ _) as [|x r]; [discriminate|].
    simpl in Hraw. injection Hraw as ->. reflexivity.
  - intros i j w [Hij Hj] Hw. induction j as [|j IH].
    + replace i with 0%nat in Hw by lia. eauto.
    + destruct (Nat.eq_dec i (S j)) as [-> | Hne]; [eauto|].
      destruct IH as [w' Hw']; [lia | lia |].
      destruct (raw_vwap_at bars (S j) Hj) as (p & c & _ & Hc & Hraw).
      destruct (Qeq_bool c 0) eqn:E.
      * exists w'. rewrite Hstep; [exact Hw' | exact Hj |].
        apply Qeq_bool_iff in E. rewrite <- Hc. exact E.
      * exists (p / c). rewrite rolling_vwap_values. unfold ffill.
        apply ffill_from_keeps. exact Hraw.
Qed.

Lemma two_term_range_from_nth (bars : list Bar) : forall pc i b,
  nth_error bars i = Some b ->
  exists p,
    match i with
    | O => Some pc
    | S j => option_map Close (nth_error bars j)
    end = Some p /\
    nth_error (two_term_range_from pc bars) i
    = Some (Qmax (High b - Low b) (Qabs (High b - p))).
Proof.
  induction bars as [|x r IH]; intros pc i b H; [destruct i; discriminate|].
  destruct i as [|i]; simpl in H.
  - injection H as ->. exists pc. split; reflexivity.
  - destruct (IH (Close x) i b H) as (p & Hp & Hn).
    exists p. split; [|exact Hn].
    destruct i as [|i]; [simpl; exact Hp | exact Hp].
Qed.

(** X3. The true range of a bar is the larger of high - low and
    |high - prev_close|, where prev_close is the close of the bar before, or
    the bar's own open on the first bar. *)
Theorem X3_true_range_of_each_bar (bars : list Bar) (i : nat) (b : Bar) :
  nth_error bars i = Some b ->
  exists p,
    prev_close_at bars i = Some p /\
    nth_error (true_range bars) i = Some (Qmax (High b - Low b) (Qabs (High b - p))).
Proof.
  intros H. rewrite true_range_two_term.
  destruct bars as [|b0 r] eqn:E; [destruct i; discriminate|].
  rewrite <- E in *.
  destruct (two_term_range_from_nth bars (Open b0) i b H) as (p & Hp & Hn).
  exists p. split; [|exact Hn].
  unfold prev_close_at. destruct i as [|i]; [|exact Hp].
  rewrite E. simpl. exact Hp.
Qed.

Lemma X3_witness :
  exists p,
    prev_close_at gap_down_bars 1 = Some p /\
    nth_error (true_range gap_down_bars) 1 = Some (Qmax (11 - 10) (Qabs (11 - p))).
Proof.
  apply (X3_true_range_of_each_bar gap_down_bars 1 (mkBar 34500 (21 # 2) 11 10 (21 # 2) 1)).
  reflexivity.
Defined.

Lemma true_range_nonneg (bars : list Bar) : Forall (fun x => 0 <= x) (true_range bars).
Proof.
  rewrite true_range_two_term. destruct bars as [|b0 r]; [constructor|].
  generalize (Open b0). generalize (b0 :: r). clear.
  intros l. induction l as [|b l IH]; intros pc; cbn [two_term_range_from]; constructor.
  - pose proof (Qabs_nonneg (High b - pc)).
    pose proof (Q.le_max_r (High b - Low b) (Qabs (High b - pc))). lra.
  - apply IH.
Qed.

Lemma rolling_mean_from_nth (w m : nat) (l : list Q) : forall hist i,
  (i < length l)%nat ->
  nth_error (rolling_mean_from w m hist l) i
  = Some (let win := firstn w (rev (firstn (S i) l) ++ hist) in
          if Nat.leb m (length win)
          then Some (Qsum win / inject_Z (Z.of_nat (length win)))
          else None).
Proof.
  induction l as [|x r IH]; intros hist i Hi; [simpl in Hi; lia|].
  destruct i as [|i].
  - reflexivity.
  - simpl in Hi. cbn [rolling_mean_from nth_error]. rewrite IH by lia.
    change (firstn (S (S i)) (x :: r)) with (x :: firstn (S i) r).
    cbn [rev]. rewrite <- app_assoc. reflexivity.
Qed.

Lemma Qsum_app (l1 l2 : list Q) : Qsum (l1 ++ l2) == Qsum l1 + Qsum l2.
Proof.
  induction l1 as [|x r IH]; simpl; [lra | rewrite IH; lra].
Qed.

Lemma Qsum_rev (l : list Q) : Qsum (rev l) == Qsum l.
Proof.
  induction l as [|x r IH]; simpl; [reflexivity|].
  rewrite Qsum_app, IH. simpl. lra.
Qed.

Lemma atr_value_at (bars : list Bar) (i : nat) :
  (i < length bars)%nat ->
  nth_error (values (atr_of bars)) i
  = Some (Some (Qsum (rev (atr_window bars i))
                / inject_Z (Z.of_nat (length (rev (atr_window bars i)))))) /\
  length (atr_window bars i) = Nat.min (S i) 14.
Proof.
  intros Hi.
  assert (Hlen : length (firstn (S i) (true_range bars)) = S i).
  { rewrite length_firstn, true_range_length. lia. }
  assert (Hw : length (atr_window bars i) = Nat.min (S i) 14).
  { unfold atr_window. rewrite length_skipn, Hlen. lia. }
  split; [|exact Hw].
  rewrite atr_of_values. unfold ffill, rolling_mean. apply ffill_from_keeps.
  rewrite rolling_mean_from_nth by (rewrite true_range_length; exact Hi).
  rewrite app_nil_r, firstn_rev, Hlen. fold (atr_window bars i).
  cbv zeta. rewrite length_rev, Hw.
  destruct (Nat.leb_spec 1 (Nat.min (S i) 14)); [reflexivity | lia].
Qed.

(** X4. The ATR at bar [i] is the plain average of the true ranges of
    bars [i - 13 .. i], or of bars [0 .. i] while fewer than 14 exist. *)
Theorem X4_atr_is_trailing_mean (bars : list Bar) (i : nat) :
  (i < length bars)%nat ->
  length (atr_window bars i) = Nat.min (S i) 14 /\
  exists a,
    nth_error (values (atr_of bars)) i = Some (Some a) /\
    a == Qsum (atr_window bars i) / inject_Z (Z.of_nat (length (atr_window bars i))).
Proof.
  intros Hi. destruct (atr_value_at bars i Hi) as [Hv Hw]. split; [exact Hw|].
  eexists. split; [exact Hv|]. rewrite Qsum_rev, length_rev. reflexivity.
Qed.

Lemma X4_witness :
  length (atr_window gap_down_bars 1) = Nat.min 2 14 /\
  exists a,
    nth_error (values (atr_of gap_down_bars)) 1 = Some (Some a) /\
    a == Qsum (atr_window gap_down_bars 1)
         / inject_Z (Z.of_nat (length (atr_window gap_down_bars 1))).
Proof.
  apply (X4_atr_is_trailing_mean gap_down_bars 1). simpl. lia.
Defined.

(** X5. Every bar has a defined ATR, and it is never negative, whether
    or not the bars satisfy the Bar invariants. *)
Theorem X5_atr_defined_and_nonnegative (bars : list Bar) :
  length (values (atr_of bars)) = length bars /\
  Forall (fun v => exists a, v = Some a /\ 0 <= a) (values (atr_of bars)).
Proof.
  assert (Hl : length (values (atr_of bars)) = length bars).
  { rewrite atr_of_values. apply atr_values_length. }
  split; [exact Hl|]. apply Forall_forall. intros v Hin.
  destruct (In_nth_error (values (atr_of bars)) v Hin) as [i Hi].
  assert (Hlt : (i < length bars)%nat).
  { rewrite <- Hl. apply (proj1 (nth_error_Some (values (atr_of bars)) i)).
    intros Hn. rewrite Hn in Hi. discriminate. }
  destruct (atr_value_at bars i Hlt) as [Hv Hw]. rewrite Hv in Hi. injection Hi as <-.
  eexists. split; [reflexivity|].
  assert (Hnn : 0 <= Qsum (rev (atr_window bars i))).
  { apply Qsum_nonneg. apply Forall_rev. unfold atr_window.
    apply Forall_forall. intros x Hx.
    assert (Hx' : In x (true_range bars)).
    { eapply firstn_In. rewrite <- (firstn_skipn (S i - 14) (firstn (S i) (true_range bars))).
      apply in_or_app. right. exact Hx. }
    pose proof (true_range_nonneg bars) as HF. rewrite Forall_forall in HF. auto. }
  rewrite length_rev, Hw.
  assert (Hpos : 0 < inject_Z (Z.of_nat (Nat.min (S i) 14))).
  { change 0 with (inject_Z 0). rewrite <- Zlt_Qlt. lia. }
  apply Qle_shift_div_l; [exact Hpos | lra].
Qed.

(** * Further properties of the detector *)

Lemma insert_by_ts_sorted (b : Bar) (l : list Bar) :
  StronglySorted (fun a c => (ts a <= ts c)%Z) l ->
  StronglySorted (fun a c => (ts a <= ts c)%Z) (insert_by_ts b l).
Proof.
  induction 1 as [|x r Hs IH Hall]; simpl.
  - constructor; constructor.
  - destruct (Z.leb_spec (ts b) (ts x)).
    + constructor; [constructor; assumption|].
      constructor; [assumption|].
      eapply Forall_impl; [|exact Hall]. simpl. intros; lia.
    + constructor; [exact IH|].
      eapply Permutation_Forall; [symmetry; apply insert_by_ts_perm|].
      constructor; [lia | exact Hall].
Qed.

Lemma sort_index_is_sorted (bars : list Bar) :
  StronglySorted (fun a c => (ts a <= ts c)%Z) (sort_index bars).
Proof.
  induction bars as [|b r IH]; simpl; [constructor | apply insert_by_ts_sorted; exact IH].
Qed.

Lemma sorted_distinct_strict (l : list Bar) :
  StronglySorted (fun a c => (ts a <= ts c)%Z) l -> NoDup (map ts l) ->
  StronglySorted (fun a c => (ts a < ts c)%Z) l.
Proof.
  induction 1 as [|x r Hs IH Hall]; intros Hnd; [constructor|].
  simpl in Hnd. inversion Hnd as [|? ? Hnin Hnd']; subst.
  constructor; [apply IH; exact Hnd'|].
  rewrite Forall_forall in *. intros y Hy. specialize (Hall y Hy).
  assert (ts y <> ts x).
  { intros Heq. apply Hnin. rewrite <- Heq. apply in_map. exact Hy. }
  lia.
Qed.

Lemma sort_index_strict (bars : list Bar) :
  NoDup (map ts bars) -> StronglySorted (fun a c => (ts a < ts c)%Z) (sort_index bars).
Proof.
  intros H. apply sorted_distinct_strict; [apply sort_index_is_sorted|].
  apply sort_index_NoDup. exact H.
Qed.

Lemma strict_sorted_perm_eq (l1 : list Bar) : forall l2,
  StronglySorted (fun a c => (ts a < ts c)%Z) l1 ->
  StronglySorted (fun a c => (ts a < ts c)%Z) l2 ->
  Permutation l1 l2 -> l1 = l2.
Proof.
  induction l1 as [|a r1 IH]; intros l2 H1 H2 Hp.
  - apply Permutation_nil in Hp. congruence.
  - destruct l2 as [|b r2].
    { symmetry in Hp. apply Permutation_nil in Hp. discriminate. }
    inversion H1 as [|? ? Hs1 Ha]; subst. inversion H2 as [|? ? Hs2 Hb]; subst.
    assert (Hab : a = b).
    { assert (Hin1 : In a (b :: r2)) by (eapply Permutation_in; [exact Hp | left; reflexivity]).
      assert (Hin2 : In b (a :: r1)).
      { eapply Permutation_in; [symmetry; exact Hp | left; reflexivity]. }
      destruct Hin1 as [-> | Hin1]; [reflexivity|].
      destruct Hin2 as [-> | Hin2]; [reflexivity|].
      rewrite Forall_forall in Ha, Hb.
      specialize (Ha b Hin2). specialize (Hb a Hin1). lia. }
    subst b. f_equal. apply IH; try assumption.
    eapply Permutation_cons_inv. exact Hp.
Qed.

(** X6. The detector does not depend on the order in which the bars
    are given: any two arrangements of the same bars give the same result,
    events or error. *)
Theorem X6_detector_ignores_input_order (bars1 bars2 : list Bar) (pm : option Q) :
  Permutation bars1 bars2 ->
  five_min_signals bars1 pm = five_min_signals bars2 pm.
Proof.
  intros Hp.
  assert (Hnd : NoDup (map ts bars1) <-> NoDup (map ts bars2)).
  { split; apply Permutation_NoDup, Permutation_map; [exact Hp | symmetry; exact Hp]. }
  destruct (five_min_signals_cases bars1 pm) as [[H1 ->] | [H1 ->]];
    destruct (five_min_signals_cases bars2 pm) as [[H2 ->] | [H2 ->]];
    try reflexivity; try tauto.
  f_equal. f_equal. apply strict_sorted_perm_eq.
  - apply sort_index_strict. exact H1.
  - apply sort_index_strict. exact H2.
  - rewrite (sort_index_perm bars1), (sort_index_perm bars2). exact Hp.
Qed.

Lemma X6_witness :
  five_min_signals exit_first_bars None = five_min_signals (rev exit_first_bars) None.
Proof.
  apply (X6_detector_ignores_input_order exit_first_bars (rev exit_first_bars) None).
  simpl. apply perm_swap.
Defined.

Lemma flat_events_sorted (bars : list Bar) (outs : list (option Event)) :
  Forall2 (fun b o => forall e, o = Some e -> ev_ts e = ts b) bars outs ->
  StronglySorted (fun a c => (ts a < ts c)%Z) bars ->
  StronglySorted (fun a c => (ev_ts a < ev_ts c)%Z) (flat_events outs).
Proof.
  induction 1 as [|b o bars outs Hbo Hall IH]; intros Hs; [constructor|].
  inversion Hs as [|? ? Hs' Hb]; subst.
  destruct o as [e0|]; [|apply IH; exact Hs'].
  change (flat_events (Some e0 :: outs)) with (e0 :: flat_events outs).
  constructor; [apply IH; exact Hs'|].
  apply Forall_forall. intros e He.
  apply (flat_events_In bars outs Hall) in He. apply in_map_iff in He.
  destruct He as (b' & Hts & Hb'). rewrite Forall_forall in Hb.
  specialize (Hb b' Hb'). rewrite (Hbo e0 eq_refl), <- Hts. exact Hb.
Qed.

Lemma pure_events_stamps (bars : list Bar) (pm : option Q) :
  Forall2 (fun b o => forall e, o = Some e -> ev_ts e = ts b) bars
          (run_rules pm (indicator_rows bars) None).
Proof.
  rewrite <- (indicator_rows_bars bars) at 1. apply run_rules_timestamps.
Qed.

(** X7. The events of a successful pass come out in strictly increasing
    order of timestamp, whatever the order of the input bars. *)
Theorem X7_events_in_time_order (bars : list Bar) (pm : option Q) (evs : list Event) :
  five_min_signals bars pm = Ok evs ->
  StronglySorted (fun a c => (ev_ts a < ev_ts c)%Z) evs.
Proof.
  intros H.
  destruct (five_min_signals_cases bars pm) as [[Hnd H'] | [_ H']];
    rewrite H' in H; [|discriminate].
  injection H as <-. unfold pure_events.
  apply (flat_events_sorted (sort_index bars)).
  - apply pure_events_stamps.
  - apply sort_index_strict. exact Hnd.
Qed.

Lemma X7_witness :
  StronglySorted (fun a c => (ev_ts a < ev_ts c)%Z)
    [mkEvent 34200 ENTRY break_premarket 10; mkEvent 34500 EXIT atr_stop 8].
Proof.
  apply (X7_events_in_time_order (rev atr_stop_bars) (Some 9)).
  vm_compute. reflexivity.
Defined.

Lemma indicator_rows_row (bars : list Bar) (row : Bar) (v a : fnum) :
  In (row, v, a) (indicator_rows bars) -> In row bars.
Proof.
  intros H. unfold indicator_rows in H. apply combine3_nth in H.
  destruct H as (j & Hj & _). eapply nth_error_In. exact Hj.
Qed.

(** X8. Every event of a successful pass belongs to one of the input
    bars: it carries that bar's timestamp and close, its kind is ENTRY for
    break_premarket and vwap_reclaim and EXIT for the other reasons, and the
    bar meets the price condition of the rule: a close above the premarket
    high for break_premarket (so none without a premarket high), and a close
    above the open for vwap_reclaim. *)
Theorem X8_event_belongs_to_a_bar (bars : list Bar) (pm : option Q) (evs : list Event)
    (e : Event) :
  five_min_signals bars pm = Ok evs -> In e evs ->
  exists b,
    In b bars /\ ev_ts e = ts b /\ ev_price e = Close b /\
    ev_kind e = rule_kind (ev_reason e) /\
    (ev_reason e = break_premarket -> exists p, pm = Some p /\ p < Close b) /\
    (ev_reason e = vwap_reclaim -> Open b < Close b).
Proof.
  intros H Hin.
  destruct (five_min_signals_cases bars pm) as [[Hnd H'] | [_ H']];
    rewrite H' in H; [|discriminate].
  injection H as <-. unfold pure_events in Hin.
  apply run_rules_origin in Hin. destruct Hin as (row & v & a & st & Hrow & He).
  apply indicator_rows_row in Hrow.
  apply (Permutation_in _ (sort_index_perm bars)) in Hrow.
  apply bar_rules_event in He. destruct He as (Hts & Hp & Hk & Hm & _).
  exists row. repeat split; try assumption.
  - intros Hr. rewrite Hr in Hm. simpl in Hm.
    destruct pm as [p|]; [|discriminate]. exists p. split; [reflexivity|].
    apply Qltb_lt. exact Hm.
  - intros Hr. rewrite Hr in Hm. simpl in Hm. apply andb_true_iff in Hm.
    apply Qltb_lt. tauto.
Qed.

Lemma X8_witness :
  exists b,
    In b atr_stop_bars /\ 34200%Z = ts b /\ 10 = Close b /\
    ENTRY = rule_kind break_premarket /\
    (break_premarket = break_premarket -> exists p, Some 9 = Some p /\ p < Close b) /\
    (break_premarket = vwap_reclaim -> Open b < Close b).
Proof.
  apply (X8_event_belongs_to_a_bar atr_stop_bars (Some 9)
           [mkEvent 34200 ENTRY break_premarket 10; mkEvent 34500 EXIT atr_stop 8]
           (mkEvent 34200 ENTRY break_premarket 10)).
  - vm_compute. reflexivity.
  - left. reflexivity.
Defined.

Lemma cumsum_from_firstn (l : list Q) : forall acc n,
  firstn n (cumsum_from acc l) = cumsum_from acc (firstn n l).
Proof.
  induction l as [|x r IH]; intros acc [|n]; simpl; auto. f_equal. apply IH.
Qed.

Lemma cumsum_firstn (l : list Q) (n : nat) : firstn n (cumsum l) = cumsum (firstn n l).
Proof.
  destruct l as [|x r]; destruct n as [|n]; simpl; auto.
  f_equal. apply cumsum_from_firstn.
Qed.

Lemma rolling_vwap_values_firstn (bars : list Bar) (n : nat) :
  values (rolling_vwap (firstn n bars)) = firstn n (values (rolling_vwap bars)).
Proof.
  rewrite !rolling_vwap_values. unfold ffill, replace0_nan.
  rewrite ffill_from_firstn, zip_with_firstn, firstn_map, !cumsum_firstn, !firstn_map.
  reflexivity.
Qed.

Lemma atr_of_values_firstn (bars : list Bar) (n : nat) :
  values (atr_of (firstn n bars)) = firstn n (values (atr_of bars)).
Proof.
  rewrite <- atr_of_firstn. unfold values. rewrite firstn_map. reflexivity.
Qed.

Lemma indicator_rows_firstn (bars : list Bar) (n : nat) :
  indicator_rows (firstn n bars) = firstn n (indicator_rows bars).
Proof.
  unfold indicator_rows.
  rewrite rolling_vwap_values_firstn, atr_of_values_firstn, !combine_firstn. reflexivity.
Qed.

Lemma run_rules_app (pm : option Q) (l1 l2 : list (Bar * fnum * fnum)) : forall st,
  exists st', run_rules pm (l1 ++ l2) st = run_rules pm l1 st ++ run_rules pm l2 st'.
Proof.
  induction l1 as [|[[row v] a] r IH]; intros st; simpl.
  - exists st. reflexivity.
  - destruct (IH (snd (bar_rules pm st row v a))) as [st' ->]. exists st'. reflexivity.
Qed.

Lemma strict_sorted_NoDup (l : list Bar) :
  StronglySorted (fun a c => (ts a < ts c)%Z) l -> NoDup (map ts l).
Proof.
  induction 1 as [|x r Hs IH Hall]; simpl; constructor; [|exact IH].
  intros Hin. apply in_map_iff in Hin. destruct Hin as (y & Hy & Hin).
  rewrite Forall_forall in Hall. specialize (Hall y Hin). lia.
Qed.

Lemma strict_sorted_weak (l : list Bar) :
  StronglySorted (fun a c => (ts a < ts c)%Z) l ->
  StronglySorted (fun a c => (ts a <= ts c)%Z) l.
Proof.
  induction 1 as [|x r Hs IH Hall]; constructor; [exact IH|].
  eapply Forall_impl; [|exact Hall]. simpl. intros; lia.
Qed.

Lemma strict_sorted_firstn (l : list Bar) : forall n,
  StronglySorted (fun a c => (ts a < ts c)%Z) l ->
  StronglySorted (fun a c => (ts a < ts c)%Z) (firstn n l).
Proof.
  intros n H. revert n. induction H as [|x r Hs IH Hall]; intros [|n]; simpl;
    try constructor.
  - apply IH.
  - apply Forall_forall. intros y Hy. apply firstn_In in Hy.
    rewrite Forall_forall in Hall. auto.
Qed.

Lemma five_min_signals_in_order (bars : list Bar) (pm : option Q) :
  StronglySorted (fun a c => (ts a < ts c)%Z) bars ->
  five_min_signals bars pm = Ok (pure_events pm bars).
Proof.
  intros H. rewrite five_min_signals_distinct by (apply strict_sorted_NoDup; exact H).
  rewrite sort_index_sorted by (apply strict_sorted_weak; exact H). reflexivity.
Qed.

(** X9. The detector does not look ahead: on bars in time order, the
    events for the first [n] bars are the same whether or not later bars
    follow, and every further event is stamped with one of the later bars. *)
Theorem X9_detector_no_lookahead (bars : list Bar) (pm : option Q) (n : nat) :
  StronglySorted (fun a c => (ts a < ts c)%Z) bars ->
  exists evs later,
    five_min_signals (firstn n bars) pm = Ok evs /\
    five_min_signals bars pm = Ok (evs ++ later) /\
    forall e, In e later -> In (ev_ts e) (map ts (skipn n bars)).
Proof.
  intros Hs.
  rewrite (five_min_signals_in_order bars pm Hs).
  rewrite (five_min_signals_in_order (firstn n bars) pm (strict_sorted_firstn bars n Hs)).
  unfold pure_events. rewrite indicator_rows_firstn.
  pose proof (pure_events_stamps bars pm) as HF.
  assert (Hrows : map (fun x => fst (fst x)) (skipn n (indicator_rows bars)) = skipn n bars).
  { rewrite <- (indicator_rows_bars bars) at 2. rewrite skipn_map. reflexivity. }
  destruct (run_rules_app pm (firstn n (indicator_rows bars))
              (skipn n (indicator_rows bars)) None) as [st' Happ].
  rewrite firstn_skipn in Happ. rewrite Happ.
  exists (flat_events (run_rules pm (firstn n (indicator_rows bars)) None)),
         (flat_events (run_rules pm (skipn n (indicator_rows bars)) st')).
  split; [reflexivity|]. split.
  - unfold flat_events. rewrite flat_map_app. reflexivity.
  - intros e He. eapply flat_events_In; [|exact He].
    rewrite <- Hrows. apply run_rules_timestamps.
Qed.

Lemma X9_witness :
  exists evs later,
    five_min_signals (firstn 1 atr_stop_bars) (Some 9) = Ok evs /\
    five_min_signals atr_stop_bars (Some 9) = Ok (evs ++ later) /\
    forall e, In e later -> In (ev_ts e) (map ts (skipn 1 atr_stop_bars)).
Proof.
  apply (X9_detector_no_lookahead atr_stop_bars (Some 9) 1).
  repeat constructor; simpl; lia.
Defined.

(** * Further properties of the replay driver *)

Lemma gap_of_cases (t : string) (p o : Q) (l : list GapCandidate) :
  gap_of t p o = Ok l -> ~ p == 0 /\ l = [gap_candidate t p o].
Proof.
  unfold gap_of, py_div. destruct (Qeq_bool p 0) eqn:E; [discriminate|].
  apply Qeq_bool_neq in E. cbn [bind]. intros [= <-]. split; [exact E | reflexivity].
Qed.

Lemma gap_body_cases (src : BarSource) (target_date : option Z) (t : string)
    (l : list GapCandidate) :
  gap_body src target_date t = Ok l ->
  l = [] \/
  exists frame p o,
    daily_history src t = Ok frame /\ In p (d_rows frame) /\ In o (d_rows frame) /\
    ~ d_close p == 0 /\ l = [gap_candidate t (d_close p) (d_open o)].
Proof.
  unfold gap_body. destruct (daily_history src t) as [frame|e]; [|discriminate].
  cbn [bind]. destruct (d_rows frame) as [|r0 rows'] eqn:Erows; [intros [= <-]; auto|].
  rewrite <- Erows.
  destruct (negb (has_open frame) || negb (has_close frame)); [intros [= <-]; auto|].
  assert (Hiloc : forall i (k : DailyRow -> result (list GapCandidate)),
            bind (iloc (d_rows frame) i) k = Ok l ->
            exists r, In r (d_rows frame) /\ k r = Ok l).
  { intros i k. unfold iloc. destruct (nth_error (d_rows frame) i) as [r|] eqn:En;
      [|discriminate]. cbn [bind]. intros Hk. exists r. split; [|exact Hk].
    eapply nth_error_In. exact En. }
  assert (Hpair : forall i j,
            (p <- iloc (d_rows frame) i ;; o <- iloc (d_rows frame) j ;;
             gap_of t (d_close p) (d_open o)) = Ok l ->
            exists frame' p o,
              Ok frame = Ok frame' /\ In p (d_rows frame') /\ In o (d_rows frame') /\
              ~ d_close p == 0 /\ l = [gap_candidate t (d_close p) (d_open o)]).
  { intros i j H. apply Hiloc in H. destruct H as (p & Hp & H).
    apply Hiloc in H. destruct H as (o & Ho & H).
    apply gap_of_cases in H. destruct H as [Hnz ->].
    exists frame, p, o. auto. }
  destruct target_date as [d|].
  - destruct (find_date d (d_rows frame) 0) as [[|m]|]; try (intros [= <-]; auto).
    intros H. right. apply (Hpair _ _ H).
  - destruct (length (d_rows frame) <? 2)%nat; [intros [= <-]; auto|].
    intros H. right. apply (Hpair _ _ H).
Qed.


Lemma gap_results_ticker (src : BarSource) (target_date : option Z) (tks : list string)
    (c : GapCandidate) :
  In c (gap_results src target_date tks) -> In (ticker c) tks.
Proof.
  intros Hc. apply gap_results_In in Hc. destruct Hc as (t & l & Ht & Hb & Hc).
  apply gap_body_cases in Hb.
  destruct Hb as [-> | (frame & p & o & _ & _ & _ & _ & ->)]; [destruct Hc|].
  destruct Hc as [<- | []]. exact Ht.
Qed.


Lemma firstn_desc_sorted (l : list GapCandidate) (n : nat) :
  desc_sorted l -> desc_sorted (firstn n l).
Proof.
  intros H. revert n. induction H as [|x r Hs IH Hall]; intros [|n]; simpl;
    try constructor.
  - apply IH.
  - apply Forall_forall. intros y Hy. apply firstn_In in Hy.
    rewrite Forall_forall in Hall. auto.
Qed.

Lemma slice_to_firstn {A : Type} (n : Z) (l : list A) :
  exists k, slice_to n l = firstn k l /\
            ((0 <= n)%Z -> k = Z.to_nat n) /\
            ((n < 0)%Z -> k = (length l - Z.to_nat (- n))%nat).
Proof.
  unfold slice_to. destruct (Z.leb_spec 0 n).
  - exists (Z.to_nat n). split; [reflexivity|]. split; intros; [reflexivity | lia].
  - exists (length l - Z.to_nat (- n))%nat. split; [reflexivity|].
    split; intros; [lia | reflexivity].
Qed.

(** X12. The candidates kept for replay come in descending order of
    gap, all reach the threshold, and are the leading part of the ranked
    qualifying candidates: at most [top_n] of them for a count that is not
    negative, and all but the last [-top_n] for a negative one. *)
Theorem X12_selection_is_ranked_prefix (thr : Q) (n : Z) (results : list GapCandidate) :
  let qualifying := filter (fun r => Qle_bool thr (gap_pct r)) results in
  let top := select_top thr n results in
  desc_sorted top /\
  Forall (fun c => thr <= gap_pct c /\ In c results) top /\
  (exists rest, sorted_desc qualifying = top ++ rest /\
                Permutation (top ++ rest) qualifying) /\
  ((0 <= n)%Z -> length top = Nat.min (Z.to_nat n) (length qualifying)) /\
  ((n < 0)%Z -> length top = (length qualifying - Z.to_nat (- n))%nat).
Proof.
  intros qualifying top. subst top. unfold select_top. fold qualifying.
  destruct (slice_to_firstn n (sorted_desc qualifying)) as (k & -> & Hpos & Hneg).
  assert (Hlen : length (sorted_desc qualifying) = length qualifying).
  { apply Permutation_length, sorted_desc_perm. }
  split; [apply firstn_desc_sorted, sorted_desc_sorted|]. split; [|split; [|split]].
  - apply Forall_forall. intros c Hc. apply firstn_In in Hc.
    apply (Permutation_in _ (sorted_desc_perm _)) in Hc.
    apply filter_In in Hc. rewrite Qle_bool_iff in Hc. tauto.
  - exists (skipn k (sorted_desc qualifying)). rewrite firstn_skipn.
    split; [reflexivity | apply sorted_desc_perm].
  - intros H. rewrite length_firstn, Hlen, (Hpos H). reflexivity.
  - intros H. rewrite length_firstn, (Hneg H), Hlen. lia.
Qed.

(** ** The replay date *)

Lemma unique_from_In (l : list Z) : forall seen x,
  In x (unique_from seen l) -> In x l /\ ~ In x seen.
Proof.
  induction l as [|a r IH]; intros seen x H; [destruct H|].
  simpl in H. destruct (existsb (Z.eqb a) seen) eqn:E.
  - apply IH in H. destruct H. split; [right|]; assumption.
  - destruct H as [<- | H].
    + split; [left; reflexivity|]. intros Hin.
      assert (existsb (Z.eqb a) seen = true).
      { apply existsb_exists. exists a. split; [exact Hin | apply Z.eqb_refl]. }
      congruence.
    + apply IH in H. destruct H as [H1 H2]. split; [right; exact H1|].
      intros Hin. apply H2. right. exact Hin.
Qed.

Lemma unique_from_fresh (l : list Z) : forall seen x,
  In x l -> ~ In x seen -> In x (unique_from seen l).
Proof.
  induction l as [|a r IH]; intros seen x Hin Hs; [destruct Hin|].
  simpl. destruct (existsb (Z.eqb a) seen) eqn:E.
  - apply IH; [|exact Hs]. destruct Hin as [-> | Hin]; [|exact Hin].
    exfalso. apply existsb_exists in E. destruct E as (y & Hy & Hxy).
    apply Z.eqb_eq in Hxy. subst y. contradiction.
  - destruct (Z.eq_dec a x) as [-> | Hne]; [left; reflexivity|]. right.
    apply IH; [destruct Hin; [contradiction | assumption]|].
    intros [-> | H]; [contradiction | exact (Hs H)].
Qed.

Lemma last_cons_nonempty (a : Z) (l : list Z) (d : Z) : l <> [] -> last (a :: l) d = last l d.
Proof. destruct l; [contradiction | reflexivity]. Qed.

Lemma unique_from_last_sorted (l : list Z) : forall seen x pre,
  StronglySorted Z.le l -> l = pre ++ [x] -> ~ In x seen ->
  last (unique_from seen l) 0%Z = x.
Proof.
  induction l as [|a r IH]; intros seen x pre Hs Hl Hx.
  - destruct pre; discriminate.
  - inversion Hs as [|? ? Hs' Hall]; subst.
    assert (Hxin : In x (a :: r)) by (rewrite Hl; apply in_elt).
    simpl. destruct (existsb (Z.eqb a) seen) eqn:E.
    + destruct pre as [|p pre'].
      * injection Hl as -> ->. exfalso. apply existsb_exists in E.
        destruct E as (y & Hy & Hxy). apply Z.eqb_eq in Hxy. subst y. contradiction.
      * injection Hl as -> Hl. apply (IH seen x pre' Hs' Hl Hx).
    + destruct (Z.eq_dec a x) as [-> | Hne].
      * assert (Hall' : forall y, In y r -> y = x).
        { intros y Hy. rewrite Forall_forall in Hall. specialize (Hall y Hy).
          assert (Hyx : (y <= x)%Z).
          { destruct pre as [|p pre'].
            - simpl in Hl. injection Hl as Hr. subst r. destruct Hy.
            - simpl in Hl. injection Hl as Hp Hr. subst p r.
              clear - Hs' Hy. induction pre' as [|q pre'' IHp].
              + destruct Hy as [<- | []]. lia.
              + inversion Hs' as [|? ? Hs'' Hq]; subst.
                destruct Hy as [<- | Hy].
                * rewrite Forall_forall in Hq. apply Hq. apply in_or_app.
                  right. left. reflexivity.
                * apply IHp; assumption. }
          lia. }
        destruct (unique_from (x :: seen) r) as [|u us] eqn:Eu; [reflexivity|].
        exfalso. assert (Hu : In u (unique_from (x :: seen) r)) by (rewrite Eu; left; reflexivity).
        apply unique_from_In in Hu. destruct Hu as [Hur Hus].
        apply Hus. left. symmetry. apply Hall'. exact Hur.
      * destruct pre as [|p pre']; [injection Hl as -> _; contradiction|].
        injection Hl as -> Hl.
        assert (Hne' : unique_from (p :: seen) r <> []).
        { intros Hnil. assert (Hin : In x (unique_from (p :: seen) r)).
          { apply unique_from_fresh; [rewrite Hl; apply in_elt|].
            intros [-> | H]; [congruence | exact (Hx H)]. }
          rewrite Hnil in Hin. destruct Hin. }
        rewrite last_cons_nonempty by exact Hne'.
        apply (IH (p :: seen) x pre' Hs' Hl).
        intros [-> | H]; [congruence | exact (Hx H)].
Qed.

Lemma date_of_mono (t1 t2 : Z) : (t1 <= t2)%Z -> (date_of t1 <= date_of t2)%Z.
Proof. intros H. unfold date_of. apply Z.div_le_mono; lia. Qed.

Lemma sorted_dates (df : list Bar) :
  StronglySorted (fun a c => (ts a <= ts c)%Z) df ->
  StronglySorted Z.le (map (fun b => date_of (ts b)) df).
Proof.
  induction 1 as [|x r Hs IH Hall]; simpl; constructor; [exact IH|].
  apply Forall_map. eapply Forall_impl; [|exact Hall].
  simpl. intros y Hy. apply date_of_mono. exact Hy.
Qed.

(** X14. With no target date the replay date of an intraday frame in
    time order is the calendar date of its last bar. *)
Theorem X14_fallback_date_is_last_bar_date (df_5m pre : list Bar) (b : Bar) :
  StronglySorted (fun a c => (ts a <= ts c)%Z) df_5m -> df_5m = pre ++ [b] ->
  last_day df_5m = date_of (ts b).
Proof.
  intros Hs Hl. unfold last_day.
  apply (unique_from_last_sorted _ [] _ (map (fun b => date_of (ts b)) pre)).
  - apply sorted_dates. exact Hs.
  - rewrite Hl, map_app. reflexivity.
  - intros [].
Qed.

Lemma X14_witness : last_day intraday_bars = date_of 120900.
Proof.
  apply (X14_fallback_date_is_last_bar_date intraday_bars
           [mkBar 120600 10 10 9 10 100] (mkBar 120900 10 10 8 9 100)).
  - repeat constructor; simpl; lia.
  - reflexivity.
Defined.

(** ** What reaches the sink *)

Lemma five_min_signals_event_bar (bars : list Bar) (pm : option Q) (evs : list Event)
    (e : Event) :
  five_min_signals bars pm = Ok evs -> In e evs ->
  exists b, In b bars /\ ts b = ev_ts e /\ Close b = ev_price e.
Proof.
  intros H Hin.
  destruct (five_min_signals_cases bars pm) as [[Hnd H'] | [_ H']];
    rewrite H' in H; [|discriminate].
  injection H as <-. unfold pure_events in Hin.
  apply run_rules_origin in Hin. destruct Hin as (row & v & a & st & Hrow & He).
  apply indicator_rows_row in Hrow.
  apply (Permutation_in _ (sort_index_perm bars)) in Hrow.
  apply bar_rules_event in He. destruct He as (Hts & Hp & _).
  exists row. auto.
Qed.

Lemma filter_bars_for_date_In (df_5m : list Bar) (d : Z) (b : Bar) :
  In b (filter_bars_for_date df_5m d) <-> In b df_5m /\ date_of (ts b) = d.
Proof.
  unfold filter_bars_for_date. destruct df_5m as [|b0 r] eqn:E.
  - split; [intros [] | intros [[] _]].
  - rewrite <- E. rewrite filter_In, Z.eqb_eq. reflexivity.
Qed.

Lemma replay_ticker_writes (src : BarSource) (target_date : option Z) (c : GapCandidate)
    (w : list (string * Event)) (tk : string) (ev : Event) :
  replay_ticker src target_date c = Ok w -> In (tk, ev) w ->
  tk = ticker c /\
  exists df_5m b,
    intraday_history src tk = Ok df_5m /\ In b df_5m /\
    ts b = ev_ts ev /\ Close b = ev_price ev /\
    date_of (ev_ts ev)
    = match target_date with Some d => d | None => last_day df_5m end.
Proof.
  unfold replay_ticker. destruct (intraday_history src (ticker c)) as [df|e] eqn:Ef;
    [|discriminate].
  cbn [bind]. destruct df as [|b0 r] eqn:Edf; [intros [= <-] []|].
  rewrite <- Edf in *.
  set (used := match target_date with Some d => d | None => last_day df end).
  destruct (filter_bars_for_date df used) as [|d0 dr] eqn:Eday; [intros [= <-] []|].
  rewrite <- Eday.
  destruct (five_min_signals (filter_bars_for_date df used) (compute_premarket_high df 9 30))
    as [events|e] eqn:Esig; [|discriminate].
  cbn [bind]. intros [= <-] Hin. apply in_map_iff in Hin.
  destruct Hin as (e & [= <- <-] & He). split; [reflexivity|].
  destruct (five_min_signals_event_bar _ _ _ _ Esig He) as (b & Hb & Hts & Hcl).
  apply filter_bars_for_date_In in Hb. destruct Hb as [Hb Hd].
  exists df, b. rewrite <- Hts. auto.
Qed.

Lemma replay_loop_sink (src : BarSource) (target_date : option Z)
    (top : list GapCandidate) : forall written x,
  In x (sink (replay_loop src target_date top written)) ->
  In x written \/
  exists c w, In c top /\ replay_ticker src target_date c = Ok w /\ In x w.
Proof.
  induction top as [|c r IH]; intros written x H; simpl in H; [left; exact H|].
  destruct (replay_ticker src target_date c) as [w|e] eqn:E; [|left; exact H].
  apply IH in H. destruct H as [H | (c' & w' & Hc & Hr & Hx)].
  - apply in_app_or in H. destruct H as [H | H]; [left; exact H|].
    right. exists c, w. split; [left; reflexivity | auto].
  - right. exists c', w'. split; [right; exact Hc | auto].
Qed.

Lemma select_top_In (thr : Q) (n : Z) (results : list GapCandidate) (c : GapCandidate) :
  In c (select_top thr n results) -> In c results /\ thr <= gap_pct c.
Proof.
  unfold select_top. destruct (slice_to_firstn n
    (sorted_desc (filter (fun r => Qle_bool thr (gap_pct r)) results))) as (k & -> & _).
  intros H. apply firstn_In in H. apply (Permutation_in _ (sorted_desc_perm _)) in H.
  apply filter_In in H. rewrite Qle_bool_iff in H. exact H.
Qed.

(** X15. Whatever a run writes to the sink belongs to a configured
    ticker whose candidate reaches the gap threshold, and is an event of one
    of that ticker's own intraday bars (same timestamp and close) dated on
    the replay date: the target date, or the frame's last day when no target
    is given. *)
Theorem X15_sink_writes_are_on_the_replay_date (cfg : Config) (src : BarSource)
    (target_date : option Z) (speed : Q) (tk : string) (ev : Event) :
  In (tk, ev) (sink (run_replay_for_date cfg src target_date speed)) ->
  In tk (tickers cfg) /\
  (exists c, In c (gap_results src target_date (tickers cfg)) /\ ticker c = tk /\
             gap_threshold_percent cfg <= gap_pct c) /\
  exists df_5m b,
    intraday_history src tk = Ok df_5m /\ In b df_5m /\
    ts b = ev_ts ev /\ Close b = ev_price ev /\
    date_of (ev_ts ev)
    = match target_date with Some d => d | None => last_day df_5m end.
Proof.
  unfold run_replay_for_date.
  set (results := gap_results src target_date (tickers cfg)).
  set (top := select_top (gap_threshold_percent cfg) (top_n_gappers cfg) results).
  intros H.
  assert (H' : In (tk, ev) (sink (replay_loop src target_date top []))).
  { destruct top; [destruct H | exact H]. }
  apply replay_loop_sink in H'. destruct H' as [[] | (c & w & Hc & Hr & Hw)].
  destruct (replay_ticker_writes _ _ _ _ _ _ Hr Hw) as [-> Hbar].
  apply select_top_In in Hc. destruct Hc as [Hres Hthr].
  split; [|split; [|exact Hbar]].
  - apply (gap_results_ticker src target_date (tickers cfg) c Hres).
  - exists c. auto.
Qed.

Lemma X15_witness :
  In "AAA"%string ["AAA"; "BBB"]%string /\
  (exists c, In c (gap_results fetch_fails_source (Some 1%Z) ["AAA"]%string) /\
             ticker c = "AAA"%string /\ (1 # 10) <= gap_pct c) /\
  exists df_5m b,
    intraday_history fetch_fails_source "AAA" = Ok df_5m /\ In b df_5m /\
    ts b = 120900%Z /\ Close b = 9 /\ date_of 120900 = 1%Z.
Proof.
  destruct (X15_sink_writes_are_on_the_replay_date (default_config ["AAA"]%string)
              fetch_fails_source (Some 1%Z) 1 "AAA"%string
              (mkEvent 120900 EXIT vwap_loss 9)) as (_ & H2 & H3).
  - vm_compute. left. reflexivity.
  - split; [left; reflexivity|]. split; [exact H2 | exact H3].
Defined.

(** ** The premarket reference and the calendar *)

Lemma pm_mask_day_shift (h m t k : Z) : pm_mask h m (t + 86400 * k) = pm_mask h m t.
Proof.
  assert (Hh : hour (t + 86400 * k) = hour t).
  { unfold hour. replace (t + 86400 * k)%Z with (t + (24 * k) * 3600)%Z by lia.
    rewrite Z.div_add by lia. rewrite Z.mul_comm, Z.add_comm, Z.mul_comm.
    rewrite Z.add_comm. replace (t / 3600 + 24 * k)%Z with (t / 3600 + k * 24)%Z by lia.
    apply Z.mod_add. lia. }
  assert (Hm : minute (t + 86400 * k) = minute t).
  { unfold minute. replace (t + 86400 * k)%Z with (t + (1440 * k) * 60)%Z by lia.
    rewrite Z.div_add by lia.
    replace (t / 60 + 1440 * k)%Z with (t / 60 + (24 * k) * 60)%Z by lia.
    apply Z.mod_add. lia. }
  unfold pm_mask. rewrite Hh, Hm. reflexivity.
Qed.

Lemma compute_premarket_high_highs (df_5m : list Bar) (h m : Z) :
  compute_premarket_high df_5m h m
  = match map High (filter (fun b => pm_mask h m (ts b)) df_5m) with
    | [] => None
    | x :: r => Some (column_max x r)
    end.
Proof.
  unfold compute_premarket_high. destruct df_5m as [|b0 r0] eqn:E; [reflexivity|].
  rewrite <- E. destruct (filter _ df_5m); reflexivity.
Qed.

(** X16. The premarket reference looks at the time of day and the high
    of each bar only: moving any bars by whole days leaves it unchanged, so
    bars before the cutoff on every day of the input count. *)
Theorem X16_premarket_high_ignores_the_day (df1 df2 : list Bar) (h m : Z) :
  Forall2 (fun b b' => High b' = High b /\ exists k, ts b' = (ts b + 86400 * k)%Z) df1 df2 ->
  compute_premarket_high df2 h m = compute_premarket_high df1 h m.
Proof.
  intros H. rewrite !compute_premarket_high_highs.
  assert (Heq : map High (filter (fun b => pm_mask h m (ts b)) df2)
                = map High (filter (fun b => pm_mask h m (ts b)) df1)).
  { induction H as [|b b' r r' [Hh [k Hk]] _ IH]; [reflexivity|].
    simpl. rewrite Hk, pm_mask_day_shift.
    destruct (pm_mask h m (ts b)); simpl; rewrite ?Hh, IH; reflexivity. }
  rewrite Heq. reflexivity.
Qed.

Lemma X16_witness :
  compute_premarket_high [mkBar (30000 + 86400 * 3) 1 7 1 2 5; mkBar 40000 1 9 1 2 5] 9 30
  = compute_premarket_high [mkBar 30000 1 7 1 2 5; mkBar 40000 1 9 1 2 5] 9 30.
Proof.
  apply (X16_premarket_high_ignores_the_day
           [mkBar 30000 1 7 1 2 5; mkBar 40000 1 9 1 2 5]
           [mkBar (30000 + 86400 * 3) 1 7 1 2 5; mkBar 40000 1 9 1 2 5] 9 30).
  constructor; [split; [reflexivity | exists 3%Z; reflexivity]|].
  constructor; [split; [reflexivity | exists 0%Z; reflexivity]|]. constructor.
Defined.

(** ** Tickers without a candidate *)

Lemma find_date_absent (d : Z) (rows : list DailyRow) : forall k,
  Forall (fun r => date_of (d_ts r) <> d) rows -> find_date d rows k = None.
Proof.
  induction rows as [|r rest IH]; intros k H; [reflexivity|].
  inversion H as [|? ? Hr Hrest]; subst. simpl.
  destruct (Z.eqb_spec (date_of (d_ts r)) d); [contradiction | apply IH; exact Hrest].
Qed.

(** X17. A ticker gets no candidate, and the others are unaffected,
    when its daily fetch raises, its frame is empty or lacks the Open or
    Close column, the target date is absent from its rows or is its first
    row, fewer than two rows exist when no target date is given, or the
    previous close is zero, with or without a target date. *)
Theorem X17_tickers_without_candidate (src : BarSource) (target_date : option Z)
    (t : string) (rest : list string) :
  ((exists e, daily_history src t = Raise e) \/
   (exists frame,
      daily_history src t = Ok frame /\
      (d_rows frame = [] \/ has_open frame = false \/ has_close frame = false \/
       (exists d, target_date = Some d /\
                  Forall (fun r => date_of (d_ts r) <> d) (d_rows frame)) \/
       (exists d o others, target_date = Some d /\ d_rows frame = o :: others /\
                           date_of (d_ts o) = d) \/
       (target_date = None /\ (length (d_rows frame) < 2)%nat) \/
       (exists d before p o after,
          target_date = Some d /\ d_rows frame = before ++ p :: o :: after /\
          date_of (d_ts o) = d /\
          Forall (fun r => date_of (d_ts r) <> d) (before ++ [p]) /\
          d_close p == 0) \/
       (exists before p o,
          target_date = None /\ d_rows frame = before ++ [p; o] /\
          d_close p == 0)))) ->
  gap_results src target_date (t :: rest) = gap_results src target_date rest.
Proof.
  intros H.
  assert (Hb : gap_body src target_date t = Ok [] \/ exists e, gap_body src target_date t = Raise e).
  { unfold gap_body.
    destruct H as [[e ->] | (frame & -> & H)]; [right; exists e; reflexivity|].
    cbn [bind]. destruct (d_rows frame) as [|r0 rows'] eqn:Erows; [left; reflexivity|].
    rewrite <- Erows in *.
    destruct H as [H | [H | [H | H]]];
      [rewrite Erows in H; discriminate | rewrite H; left; reflexivity | |].
    { rewrite H, orb_true_r. left. reflexivity. }
    destruct (negb (has_open frame) || negb (has_close frame)); [left; reflexivity|].
    destruct H as [(d & -> & Hall) | [(d & o & others & -> & Hrows & Hd) |
                   [(-> & Hlen) | [(d & before & p & o & after & -> & Hrows & Hd & Hall & Hz) |
                                   (before & p & o & -> & Hrows & Hz)]]]].
    - rewrite find_date_absent by exact Hall. left. reflexivity.
    - rewrite Hrows. simpl. rewrite (proj2 (Z.eqb_eq _ _) Hd). left. reflexivity.
    - destruct (Nat.ltb_spec (length (d_rows frame)) 2); [left; reflexivity | lia].
    - right. rewrite Hrows.
      replace (before ++ p :: o :: after) with ((before ++ [p]) ++ o :: after)
        by (rewrite <- app_assoc; reflexivity).
      rewrite (find_date_first d (before ++ [p]) o after 0) by assumption.
      rewrite length_app. simpl length.
      replace (0 + (length before + 1))%nat with (S (length before)) by lia.
      unfold iloc. rewrite <- app_assoc. simpl app.
      rewrite (nth_error_app2 before _ (n := length before)) by lia.
      rewrite (nth_error_app2 before _ (n := S (length before))) by lia.
      rewrite Nat.sub_diag.
      replace (S (length before) - length before)%nat with 1%nat by lia.
      cbn [nth_error bind]. unfold gap_of, py_div.
      rewrite (proj2 (Qeq_bool_iff _ _) Hz). exists ZeroDivisionError. reflexivity.
    - right. rewrite Hrows, length_app. simpl length.
      destruct (Nat.ltb_spec (length before + 2) 2); [lia|].
      unfold iloc.
      replace (length before + 2 - 2)%nat with (length before) by lia.
      replace (length before + 2 - 1)%nat with (S (length before)) by lia.
      rewrite (nth_error_app2 before _ (n := length before)) by lia.
      rewrite (nth_error_app2 before _ (n := S (length before))) by lia.
      rewrite Nat.sub_diag.
      replace (S (length before) - length before)%nat with 1%nat by lia.
      cbn [nth_error bind]. unfold gap_of, py_div.
      rewrite (proj2 (Qeq_bool_iff _ _) Hz). exists ZeroDivisionError. reflexivity. }
  simpl. destruct Hb as [-> | [e ->]]; reflexivity.
Qed.

Lemma X17_witness :
  gap_results daily_only_source (Some 1%Z) ("DDD"%string :: ["AAA"]%string)
  = gap_results daily_only_source (Some 1%Z) ["AAA"]%string.
Proof.
  apply (X17_tickers_without_candidate daily_only_source (Some 1%Z) "DDD" ["AAA"]%string).
  left. exists FetchError. reflexivity.
Defined.
